(** * conn/node.go: the orchestration layer around the Raft engine

    A shallow embedding of [src/conn/node.go] (package [conn] of dgraph):
    the peer directory, the outbound message queue and its transmitter,
    the configuration-change coordinator and the read-index coordinator.

    Conventions.
    - [uint64] values (node ids, conf-change ids, raft indices) are [Z];
      they are only compared, stored and passed on, never computed with.
    - A Go [error] is an [option error]: [None] is [nil].
    - Go maps are stdpp [gmap]s, byte slices are [list byte].
    - A channel is a record holding its buffer and its parked senders.
    - What the code obtains from outside this file (the Raft engine, the
      connection pools, the random source, the scheduler's choice in a
      [select], the state of a [context.Context]) is an explicit argument
      of the function that reads it. *)

From Stdlib Require Import ZArith List Lia String.
From Stdlib Require Strings.Byte.
From coqutil Require Import Byte Word.LittleEndianList.
From stdpp Require Import gmap strings list fin_maps.

Open Scope Z_scope.

(** ** Errors and outcomes *)

(** The error values that occur in this file. [errInternalRetry],
    [ErrNoNode] and [errReadIndex] are package-level variables; the
    others are built where they are returned. [errOther] stands for any
    error produced outside this file (the engine, the encoder, the
    watermark). *)
Inductive error : Type :=
| errInternalRetry                 (* errors.New("Retry proposal again") *)
| ErrNoNode                        (* "No node has been set up yet" *)
| errReadIndex                     (* "Cannot get linearized read (time expired or no configured leader)" *)
| errNotPartOfGroup (id : Z)       (* x.Errorf("Node %#x not part of group", id) *)
| errCloserCalled                  (* errors.New("Closer has been called") *)
| ctxCanceled                      (* context.Canceled *)
| ctxDeadlineExceeded              (* context.DeadlineExceeded *)
| errOther (msg : string).

#[global] Instance error_eq_dec : EqDecision error.
Proof. solve_decision. Defined.

(** Equality of bytes, for [bytes.Equal]. *)
#[global] Instance byte_eq_dec : EqDecision byte := Stdlib.Strings.Byte.byte_eq_dec.

(** How a call ends. [AssertFailed] is [x.AssertTruef] failing,
    [CheckFailed] is [x.Check] on a non-nil error (both end the process
    through [log.Fatalf]); [Panicked] is a run-time panic; [Waiting] is a
    goroutine that has not returned: it is parked on a channel or still
    going round a loop when the environment supplied to the model ends. *)
Inductive Outcome (A : Type) : Type :=
| Ret (a : A)
| AssertFailed (msg : string)
| CheckFailed (e : error)
| Panicked (msg : string)
| Waiting.

Arguments Ret {A} a.
Arguments AssertFailed {A} msg.
Arguments CheckFailed {A} e.
Arguments Panicked {A} msg.
Arguments Waiting {A}.

(** Sequencing: the first call that does not return ends the whole. *)
#[global] Instance Outcome_bind : MBind Outcome := fun A B k o =>
  match o with
  | Ret a => k a
  | AssertFailed msg => AssertFailed msg
  | CheckFailed e => CheckFailed e
  | Panicked msg => Panicked msg
  | Waiting => Waiting
  end.

(** ** Channels *)

(** A Go channel of capacity [cap]: [buf] is the ring buffer, oldest
    element first, [sendq] the values of the senders parked because the
    buffer was full, in the order they arrived. *)
Record chan (A : Type) : Type := mkChan {
  cap : nat;
  buf : list A;
  sendq : list A
}.

Arguments mkChan {A} cap buf sendq.
Arguments cap {A} c.
Arguments buf {A} c.
Arguments sendq {A} c.

Definition make_chan {A} (capacity : nat) : chan A := mkChan capacity [] [].

(** [c <- x]. With room in the buffer the value is appended and the
    sender goes on; otherwise the sender parks behind the earlier ones
    and its value waits in [sendq]. *)
Definition chan_send {A} (c : chan A) (x : A) : chan A :=
  if (length (buf c) <? cap c)%nat
  then mkChan (cap c) (buf c ++ [x]) (sendq c)
  else mkChan (cap c) (buf c) (sendq c ++ [x]).

(** Whether a send issued now returns at once. *)
Definition chan_has_room {A} (c : chan A) : bool :=
  (length (buf c) <? cap c)%nat.

(** [<-c] when a value is available: the head of the buffer is taken
    and the first parked sender, if any, moves its value to the tail of
    the buffer; on an empty buffer a parked sender hands its value over
    directly. [None]: the receive cannot proceed. *)
Definition chan_recv {A} (c : chan A) : option (A * chan A) :=
  match buf c, sendq c with
  | x :: b, s :: q => Some (x, mkChan (cap c) (b ++ [s]) q)
  | x :: b, [] => Some (x, mkChan (cap c) b [])
  | [], s :: q => Some (s, mkChan (cap c) [] q)
  | [], [] => None
  end.

(** Every value handed to the channel and not yet received, oldest
    first. *)
Definition chan_contents {A} (c : chan A) : list A := buf c ++ sendq c.

(** ** Go's [select] *)

(** One evaluation of a [select] without [default]. Each case is [None]
    when its channel operation cannot proceed and [Some v] when it can,
    [v] being what the case yields. Among the ready cases the runtime
    picks one at random: [pick] is that random number. With no ready case
    the goroutine stays parked. *)
Definition ready_cases {A} (cases : list (option A)) : list A :=
  omap id cases.

Definition select {A} (cases : list (option A)) (pick : nat) : option A :=
  let ready := ready_cases cases in
  ready !! (pick mod length ready)%nat.

(** ** The node *)

(** pb.RaftContext *)
Record RaftContext : Type := mkRaftContext {
  rc_Id : Z;
  rc_Group : Z;
  rc_Addr : string
}.

(** sendmsg *)
Record sendmsg : Type := mkSendmsg {
  to : Z;
  data : list byte
}.

(** linReadReq: [indexCh] names the one-shot channel of the request. *)
Record linReadReq : Type := mkLinReadReq {
  indexCh : nat
}.

(** The fields of [Node] that this file reads or writes. [has_raft] is
    [n._raft != nil]. A [chan error] stored in [confChanges] is a
    reference: the map holds the address of the channel, the channels
    themselves live in the heap [errchans] below. *)
Record Node : Type := mkNode {
  requestCh : chan linReadReq;
  has_raft : bool;
  MyAddr : string;
  Id : Z;
  peers : gmap Z string;
  confChanges : gmap Z nat;
  messages : chan sendmsg;
  RaftContext_ : RaftContext
}.

Definition set_peers (n : Node) (p : gmap Z string) : Node :=
  mkNode (requestCh n) (has_raft n) (MyAddr n) (Id n) p (confChanges n)
         (messages n) (RaftContext_ n).

Definition set_confChanges (n : Node) (c : gmap Z nat) : Node :=
  mkNode (requestCh n) (has_raft n) (MyAddr n) (Id n) (peers n) c
         (messages n) (RaftContext_ n).

Definition set_messages (n : Node) (m : chan sendmsg) : Node :=
  mkNode (requestCh n) (has_raft n) (MyAddr n) (Id n) (peers n)
         (confChanges n) m (RaftContext_ n).

Definition set_requestCh (n : Node) (r : chan linReadReq) : Node :=
  mkNode r (has_raft n) (MyAddr n) (Id n) (peers n)
         (confChanges n) (messages n) (RaftContext_ n).

Definition set_has_raft (n : Node) (b : bool) : Node :=
  mkNode (requestCh n) b (MyAddr n) (Id n) (peers n)
         (confChanges n) (messages n) (RaftContext_ n).

(** NewNode. [snap] is the result of [store.Snapshot()]: the index of
    the latest snapshot or an error. *)
Definition NewNode (rc : RaftContext) (snap : error + Z) : Outcome Node :=
  match snap with
  | inl err => CheckFailed err
  | inr _ =>
      Ret (mkNode (make_chan 0) false (rc_Addr rc) (rc_Id rc) ∅ ∅
                  (make_chan 100) rc)
  end.

(** SetRaft *)
Definition SetRaft (n : Node) : Outcome Node :=
  if has_raft n then AssertFailed "" else Ret (set_has_raft n true).

(** ** The peer directory *)

(** Peer: a missing key reads as the zero value and [false]. *)
Definition Peer (n : Node) (pid : Z) : string * bool :=
  match peers n !! pid with
  | Some addr => (addr, true)
  | None => (""%string, false)
  end.

(** SetPeer *)
Definition SetPeer (n : Node) (pid : Z) (addr : string) : Outcome Node :=
  if decide (addr = ""%string)
  then AssertFailed "SetPeer for peer %d has empty addr."
  else Ret (set_peers n (<[pid := addr]> (peers n))).

(** Connect. The second component lists the addresses handed to
    [Get().Connect], which creates the pool outside this file. *)
Definition Connect (n : Node) (pid : Z) (addr : string)
  : Outcome (Node * list string) :=
  if decide (pid = Id n) then Ret (n, [])
  else
    let '(paddr, ok) := Peer n pid in
    if ok && bool_decide (paddr = addr) then Ret (n, [])
    else if decide (addr = MyAddr n) then
      n' ← SetPeer n pid addr; Ret (n', [])
    else
      n' ← SetPeer n pid addr; Ret (n', [addr]).

(** DeletePeer *)
Definition DeletePeer (n : Node) (pid : Z) : Node :=
  if decide (pid = Id n) then n
  else set_peers n (delete pid (peers n)).

(** A call on the peer directory, and sequences of them. *)
Inductive PeerOp : Type :=
| OpConnect (pid : Z) (addr : string)
| OpSetPeer (pid : Z) (addr : string)
| OpDeletePeer (pid : Z).

Definition run_op (n : Node) (op : PeerOp) : Outcome Node :=
  match op with
  | OpConnect pid addr => r ← Connect n pid addr; Ret (fst r)
  | OpSetPeer pid addr => SetPeer n pid addr
  | OpDeletePeer pid => Ret (DeletePeer n pid)
  end.

Fixpoint run_ops (n : Node) (ops : list PeerOp) : Outcome Node :=
  match ops with
  | [] => Ret n
  | op :: rest => n' ← run_op n op; run_ops n' rest
  end.

(** Whether a call passes the node's own id to [SetPeer] directly. *)
Definition sets_self (self : Z) (op : PeerOp) : bool :=
  match op with
  | OpSetPeer pid _ => bool_decide (pid = self)
  | _ => false
  end.

(** ** Send *)

(** raftpb.Message as this file sees it: the destination and what the
    generated encoder [m.Marshal()] returns for the message. *)
Record Message : Type := mkMessage {
  To : Z;
  Marshal : error + list byte
}.

(** Send. The returned node holds the channel after [n.messages <- ...]:
    when the buffer was full the caller is parked in [sendq] and returns
    only once the transmitter has made room. *)
Definition Send (n : Node) (m : Message) : Outcome Node :=
  if decide (Id n = To m) then AssertFailed "Sending message to itself"
  else
    match Marshal m with
    | inl err => CheckFailed err
    | inr d => Ret (set_messages n (chan_send (messages n) (mkSendmsg (To m) d)))
    end.

(** ** The transmitter: BatchAndSendMessages *)

Definition messageBatchSoftLimit : Z := 10000000.

(** [len(b)] as a Go [int]. *)
Definition len {A} (l : list A) : Z := Z.of_nat (length l).

(** The conversion [uint32(v)] of a non-negative [int]. *)
Definition uint32 (v : Z) : Z := v mod 2 ^ 32.

(** What one turn of the slurp loop writes to a buffer:
    [binary.Write(buf, binary.LittleEndian, uint32(len(sm.data)))]
    followed by [buf.Write(sm.data)]. *)
Definition frame (d : list byte) : list byte :=
  le_split 4 (uint32 (len d)) ++ d.

(** The buffer of a destination; a destination without one reads as the
    empty buffer, which is what the loop creates on first use. *)
Definition buffer_of (batches : gmap Z (list byte)) (dest : Z) : list byte :=
  match batches !! dest with
  | Some b => b
  | None => []
  end.

Definition append_frame (batches : gmap Z (list byte)) (sm : sendmsg)
  : gmap Z (list byte) :=
  <[to sm := buffer_of batches (to sm) ++ frame (data sm)]> batches.

(** The loop labelled [slurp_loop], entered with the message [sm]
    already received. Each turn receives at most one message, so
    [fuel] above the number of queued messages is never used up. *)
Fixpoint slurp_loop (fuel : nat) (batches : gmap Z (list byte))
    (totalSize : Z) (sm : sendmsg) (ch : chan sendmsg)
  : option (gmap Z (list byte) * chan sendmsg) :=
  match fuel with
  | O => None
  | S fuel' =>
      let batches' := append_frame batches sm in
      let totalSize' := totalSize + (4 + len (data sm)) in
      if messageBatchSoftLimit <? totalSize' then Some (batches', ch)
      else
        match chan_recv ch with
        | Some (sm', ch') => slurp_loop fuel' batches' totalSize' sm' ch'
        | None => Some (batches', ch)
        end
  end.

(** *Pool, of which only the address is read here. *)
Record Pool : Type := mkPool {
  Addr : string
}.

(** [Get().Get(addr)]: the healthy pool registered for [addr], or an
    error. The registry of pools lives outside this file. *)
Definition Pools : Type := string -> error + Pool.

(** [go n.doSendMessage(to, pool, data)] *)
Record Spawn : Type := mkSpawn {
  sp_to : Z;
  sp_pool : Pool;
  sp_data : list byte
}.

(** The arguments of the call of [glog.Warningf] in the second loop. *)
Record Warning : Type := mkWarning {
  w_to : Z;
  w_addr : string;
  w_err : option error
}.

(** The two maps the transmitter keeps across rounds, with the
    goroutines started and the warnings logged in the current round. *)
Record Transmitter : Type := mkTx {
  batches : gmap Z (list byte);
  failedConn : gmap Z bool;
  spawned : list Spawn;
  warnings : list Warning
}.

Definition err_of {A} (r : error + A) : option error :=
  match r with
  | inl e => Some e
  | inr _ => None
  end.

(** The body of [for to, buf := range batches]. *)
Definition ship_one (n : Node) (pools : Pools) (dest : Z) (buf : list byte)
    (t : Transmitter) : Transmitter :=
  if len buf =? 0 then t
  else
    let '(addr, has) := Peer n dest in
    match has, pools addr with
    | true, inr pool =>
        mkTx (<[dest := []]> (batches t))
             (<[dest := false]> (failedConn t))
             (spawned t ++ [mkSpawn dest pool buf])
             (warnings t)
    | _, r =>
        if default false (failedConn t !! dest) then t
        else
          mkTx (batches t)
               (<[dest := true]> (failedConn t))
               (spawned t)
               (warnings t ++ [mkWarning dest addr (err_of r)])
    end.

(** The second loop. Go leaves the order of a map range open; the fold
    takes the destinations in the order of [map_to_list]. *)
Definition ship (n : Node) (pools : Pools) (b : gmap Z (list byte))
    (fc : gmap Z bool) : Transmitter :=
  map_fold (ship_one n pools) (mkTx b fc [] []) b.

(** The first half of a round: the blocking receive and the slurp
    loop. *)
Definition slurp (n : Node) (b : gmap Z (list byte))
  : Outcome (gmap Z (list byte) * chan sendmsg) :=
  match chan_recv (messages n) with
  | None => Waiting
  | Some (sm, ch) =>
      match slurp_loop (S (length (chan_contents ch))) b 0 sm ch with
      | Some r => Ret r
      | None => Waiting
      end
  end.

(** One turn of the outer [for] of BatchAndSendMessages. *)
Definition round (n : Node) (pools : Pools) (t : Transmitter)
  : Outcome (Node * Transmitter) :=
  r ← slurp n (batches t);
  Ret (set_messages n (snd r), ship n pools (fst r) (failedConn t)).

(** What other goroutines do to the node between two rounds. *)
Inductive Activity : Type :=
| ActSend (m : Message)
| ActPeer (op : PeerOp).

Definition run_activity (n : Node) (a : Activity) : Outcome Node :=
  match a with
  | ActSend m => Send n m
  | ActPeer op => run_op n op
  end.

Fixpoint run_activities (n : Node) (acts : list Activity) : Outcome Node :=
  match acts with
  | [] => Ret n
  | a :: rest => n' ← run_activity n a; run_activities n' rest
  end.

(** The environment of one round: what happened since the last one and
    the pools as they are during the second loop. *)
Record RoundEnv : Type := mkRoundEnv {
  before : list Activity;
  pools_now : Pools
}.

(** BatchAndSendMessages over the rounds the environment provides. The
    result lists the transmitter after each round, first round first. *)
Fixpoint transmit_rounds (envs : list RoundEnv) (n : Node) (t : Transmitter)
  : Outcome (Node * list Transmitter) :=
  match envs with
  | [] => Ret (n, [])
  | e :: rest =>
      n1 ← run_activities n (before e);
      r ← round n1 (pools_now e) t;
      r' ← transmit_rounds rest (fst r) (snd r);
      Ret (fst r', snd r :: snd r')
  end.

Definition BatchAndSendMessages (envs : list RoundEnv) (n : Node)
  : Outcome (Node * list Transmitter) :=
  transmit_rounds envs n (mkTx ∅ ∅ [] []).

(** ** Configuration changes *)

Inductive ConfChangeType : Type :=
| ConfChangeAddNode
| ConfChangeRemoveNode.

(** raftpb.ConfChange *)
Record ConfChange : Type := mkConfChange {
  cc_ID : Z;
  cc_Type : ConfChangeType;
  cc_NodeID : Z;
  cc_Context : list byte
}.

(** The node together with the heap of [chan error] values that
    [confChanges] refers to (a channel is named by its position) and the
    conf changes handed to [n.Raft().ProposeConfChange] so far, oldest
    first. *)
Record World : Type := mkWorld {
  node : Node;
  errchans : list (chan (option error));
  propose_calls : list ConfChange
}.

(** DoneConfChange *)
Definition DoneConfChange (w : World) (id : Z) (err : option error) : World :=
  match confChanges (node w) !! id with
  | None => w
  | Some ch =>
      mkWorld (set_confChanges (node w) (delete id (confChanges (node w))))
              (alter (fun c => chan_send c err) ch (errchans w))
              (propose_calls w)
  end.

(** The loop of storeConfChange over the values [rand.Uint64()]
    returns, in the order drawn: the first one that is not a pending id.
    [None]: every value supplied was taken and the loop is still
    drawing. *)
Fixpoint pick_id (draws : list Z) (pending : gmap Z nat) : option Z :=
  match draws with
  | [] => None
  | id :: rest =>
      match pending !! id with
      | Some _ => pick_id rest pending
      | None => Some id
      end
  end.

(** storeConfChange *)
Definition storeConfChange (w : World) (che : nat) (draws : list Z)
  : option (World * Z) :=
  match pick_id draws (confChanges (node w)) with
  | None => None
  | Some id =>
      Some (mkWorld (set_confChanges (node w) (<[id := che]> (confChanges (node w))))
                    (errchans w) (propose_calls w), id)
  end.

(** What a goroutine sees of the caller's context [ctx] and of
    [cctx = context.WithTimeout(ctx, 3s)] at one moment: [ctx.Err()] and
    whether the 3-second timer of [cctx] has fired. *)
Record CtxObs : Type := mkCtxObs {
  ctx_err : option error;
  timer_fired : bool
}.

(** [cctx.Err()]. The derived context is done once its own timer has
    fired or its parent is done; a parent that is cancelled first stops
    the timer and hands its error down. *)
Definition cctx_Err (o : CtxObs) : option error :=
  if timer_fired o then Some ctxDeadlineExceeded else ctx_err o.

(** The cases of the [select] in proposeConfChange. *)
Inductive ProposeCase : Type :=
| FromCh (err : option error) (rest : chan (option error))
| CtxDone
| CctxDone.

(** The environment of one call of proposeConfChange. [engine_calls id]
    lists the calls of [DoneConfChange] made while the caller waits in
    the [select], given the id attached to the proposal. *)
Record ProposeEnv : Type := mkProposeEnv {
  draws : list Z;
  propose_result : option error;
  after_propose : CtxObs;
  engine_calls : Z -> list (Z * option error);
  at_select : CtxObs;
  pick : nat
}.

Definition with_ID (pb : ConfChange) (id : Z) : ConfChange :=
  mkConfChange id (cc_Type pb) (cc_NodeID pb) (cc_Context pb).

Definition apply_engine_calls (w : World) (calls : list (Z * option error))
  : World :=
  foldl (fun w c => DoneConfChange w (fst c) (snd c)) w calls.

(** proposeConfChange. The world is returned whatever the outcome. *)
Definition proposeConfChange (w : World) (e : ProposeEnv) (pb : ConfChange)
  : World * Outcome (option error) :=
  let che := length (errchans w) in
  let w1 := mkWorld (node w) (errchans w ++ [make_chan 1]) (propose_calls w) in
  match storeConfChange w1 che (draws e) with
  | None => (w1, Waiting)
  | Some (w2, id) =>
      if has_raft (node w2) then
        let w3 := mkWorld (node w2) (errchans w2)
                          (propose_calls w2 ++ [with_ID pb id]) in
        match propose_result e with
        | Some err =>
            match cctx_Err (after_propose e) with
            | Some _ => (w3, Ret (Some errInternalRetry))
            | None => (w3, Ret (Some err))
            end
        | None =>
            let w4 := apply_engine_calls w3 (engine_calls e id) in
            let o := at_select e in
            match select
                    [ c ← errchans w4 !! che;
                      r ← chan_recv c; Some (FromCh (fst r) (snd r));
                      _ ← ctx_err o; Some CtxDone;
                      _ ← cctx_Err o; Some CctxDone ]
                    (pick e) with
            | None => (w4, Waiting)
            | Some (FromCh err rest) =>
                (mkWorld (node w4) (<[che := rest]> (errchans w4))
                         (propose_calls w4), Ret err)
            | Some CtxDone => (w4, Ret (ctx_err o))
            | Some CctxDone => (w4, Ret (Some errInternalRetry))
            end
        end
      else (w2, Panicked "invalid memory address or nil pointer dereference")
  end.

(** [for err == errInternalRetry { err = n.proposeConfChange(ctx, cc) }],
    one environment per turn. *)
Fixpoint retry_loop (envs : list ProposeEnv) (w : World) (cc : ConfChange)
  : World * Outcome (option error) :=
  match envs with
  | [] => (w, Waiting)
  | e :: rest =>
      match proposeConfChange w e cc with
      | (w', Ret err) =>
          if decide (err = Some errInternalRetry) then retry_loop rest w' cc
          else (w', Ret err)
      | r => r
      end
  end.

(** AddToCluster. [rcMarshal] is the generated encoder of
    pb.RaftContext. *)
Definition AddToCluster (rcMarshal : RaftContext -> error + list byte)
    (w : World) (envs : list ProposeEnv) (pid : Z)
  : World * Outcome (option error) :=
  let '(addr, ok) := Peer (node w) pid in
  if ok then
    let rc := mkRaftContext pid (rc_Group (RaftContext_ (node w))) addr in
    match rcMarshal rc with
    | inl err => (w, CheckFailed err)
    | inr rcBytes =>
        retry_loop envs w (mkConfChange 0 ConfChangeAddNode pid rcBytes)
    end
  else (w, AssertFailed "Unable to find conn pool for peer: %#x").

(** ProposePeerRemoval *)
Definition ProposePeerRemoval (w : World) (envs : list ProposeEnv) (id : Z)
  : World * Outcome (option error) :=
  if has_raft (node w) then
    let '(_, ok) := Peer (node w) id in
    if negb ok && negb (bool_decide (id = rc_Id (RaftContext_ (node w))))
    then (w, Ret (Some (errNotPartOfGroup id)))
    else retry_loop envs w (mkConfChange 0 ConfChangeRemoveNode id [])
  else (w, Ret (Some ErrNoNode)).

(** ** Linearizable reads *)

(** raft.ReadState *)
Record ReadState : Type := mkReadState {
  rs_Index : Z;
  rs_RequestCtx : list byte
}.

(** What the [select] in readIndex finds each time it resolves or is
    looked at: whether the closer is closed, the read state at the head
    of [readStateCh] if there is one, whether the 3-second context is
    done, and the scheduler's pick. *)
Record WaitObs : Type := mkWaitObs {
  closed : bool;
  head_rs : option ReadState;
  ctx_done : bool;
  wpick : nat
}.

Inductive WaitCase : Type :=
| CaseClosed
| CaseReadState (rs : ReadState)
| CaseCtxDone.

Definition wait_select (o : WaitObs) : option WaitCase :=
  select [ if closed o then Some CaseClosed else None;
           CaseReadState <$> head_rs o;
           if ctx_done o then Some CaseCtxDone else None ]
         (wpick o).

(** The part of readIndex from the label [again] on. An observation in
    which no case is ready leaves the goroutine parked until the next
    one. *)
Fixpoint readIndex_wait (activeRctx : list byte) (obs : list WaitObs)
  : Outcome (Z * option error) :=
  match obs with
  | [] => Waiting
  | o :: rest =>
      match wait_select o with
      | None => readIndex_wait activeRctx rest
      | Some CaseClosed => Ret (0, Some errCloserCalled)
      | Some (CaseReadState rs) =>
          if bool_decide (activeRctx = rs_RequestCtx rs)
          then Ret (rs_Index rs, None)
          else readIndex_wait activeRctx rest
      | Some CaseCtxDone => Ret (0, Some errInternalRetry)
      end
  end.

(** The environment of one call of readIndex: the 64 random bits that
    fill [activeRctx], what [n.Raft().ReadIndex] returns, and what the
    [select] sees afterwards. *)
Record ReadIndexEnv : Type := mkReadIndexEnv {
  rand_bits : Z;
  readindex_result : option error;
  waits : list WaitObs
}.

(** The 8-byte token [activeRctx]. *)
Definition activeRctx_of (e : ReadIndexEnv) : list byte :=
  le_split 8 (rand_bits e).

(** The closure readIndex of RunReadIndexLoop. [n.Rand.Read] fills
    the token and never returns an error. *)
Definition readIndex (n : Node) (e : ReadIndexEnv) : Outcome (Z * option error) :=
  if has_raft n then
    match readindex_result e with
    | Some err => Ret (0, Some err)
    | None => readIndex_wait (activeRctx_of e) (waits e)
    end
  else Panicked "invalid memory address or nil pointer dereference".

(** The loop around readIndex: the index that the round will deliver.
    One environment per call of readIndex. *)
Fixpoint resolve_index (n : Node) (envs : list ReadIndexEnv) : Outcome Z :=
  match envs with
  | [] => Waiting
  | e :: rest =>
      r ← readIndex n e;
      if decide (snd r = Some errInternalRetry) then resolve_index n rest
      else
        match snd r with
        | Some _ => Ret 0
        | None => Ret (fst r)
        end
  end.

(** [for _, req := range requests { req.indexCh <- index }] over the
    heap of index channels. A send on a channel that has no room, or on
    a nil channel, parks the coordinator. *)
Fixpoint deliver (heap : list (chan Z)) (requests : list linReadReq)
    (index : Z) : Outcome (list (chan Z)) :=
  match requests with
  | [] => Ret heap
  | req :: rest =>
      match heap !! indexCh req with
      | Some c =>
          if chan_has_room c
          then deliver (<[indexCh req := chan_send c index]> heap) rest index
          else Waiting
      | None => Waiting
      end
  end.

(** The loop labelled [slurpLoop], entered with [req] received. *)
Fixpoint slurpLoop (fuel : nat) (requests : list linReadReq)
    (req : linReadReq) (ch : chan linReadReq)
  : option (list linReadReq * chan linReadReq) :=
  match fuel with
  | O => None
  | S fuel' =>
      let requests' := requests ++ [req] in
      match chan_recv ch with
      | Some (req', ch') => slurpLoop fuel' requests' req' ch'
      | None => Some (requests', ch)
      end
  end.

(** The state of RunReadIndexLoop between two turns of its outer
    [for]: the node, the heap of index channels, and the slice
    [requests]. *)
Record Coordinator : Type := mkCoordinator {
  co_node : Node;
  indexchans : list (chan Z);
  requests : list linReadReq
}.

(** The branch [case req := <-n.requestCh] for the request [req] just
    received, [ch] being the channel after that receive. *)
Definition read_round (c : Coordinator) (req : linReadReq)
    (ch : chan linReadReq) (envs : list ReadIndexEnv) : Outcome Coordinator :=
  match slurpLoop (S (length (chan_contents ch))) (requests c) req ch with
  | None => Waiting
  | Some (batch, ch') =>
      index ← resolve_index (co_node c) envs;
      heap ← deliver (indexchans c) batch index;
      Ret (mkCoordinator (set_requestCh (co_node c) ch') heap [])
  end.

(** What the outer [select] of RunReadIndexLoop sees. *)
Record LoopObs : Type := mkLoopObs {
  lo_closed : bool;
  lo_head_rs : option ReadState;
  lo_pick : nat;
  lo_envs : list ReadIndexEnv
}.

Inductive LoopCase : Type :=
| LoopClosed
| LoopReadState (rs : ReadState)
| LoopRequest (req : linReadReq) (ch : chan linReadReq).

(** One turn of the outer [for]: [inr] when the function returns. *)
Definition loop_turn (c : Coordinator) (o : LoopObs)
  : Outcome (Coordinator + unit) :=
  match select [ if lo_closed o then Some LoopClosed else None;
                 LoopReadState <$> lo_head_rs o;
                 r ← chan_recv (requestCh (co_node c));
                 Some (LoopRequest (fst r) (snd r)) ]
               (lo_pick o) with
  | None => Waiting
  | Some LoopClosed => Ret (inr tt)
  | Some (LoopReadState _) => Ret (inl c)
  | Some (LoopRequest req ch) =>
      c' ← read_round c req ch (lo_envs o); Ret (inl c')
  end.

(** RunReadIndexLoop, one observation per turn. *)
Fixpoint RunReadIndexLoop (c : Coordinator) (obs : list LoopObs)
  : Outcome (Coordinator + unit) :=
  match obs with
  | [] => Ret (inl c)
  | o :: rest =>
      r ← loop_turn c o;
      match r with
      | inl c' => RunReadIndexLoop c' rest
      | inr tt => Ret (inr tt)
      end
  end.

(** The environment of one call of WaitLinearizableRead: at the first
    [select], whether the coordinator is receiving on [requestCh] and
    [ctx.Err()]; at the second, the value waiting in [indexCh] if any
    and [ctx.Err()]; and what [n.Applied.WaitForMark(ctx, index)]
    returns. *)
Record ReadEnv : Type := mkReadEnv {
  coordinator_receiving : bool;
  ctx_err1 : option error;
  pick1 : nat;
  delivered : option Z;
  ctx_err2 : option error;
  pick2 : nat;
  WaitForMark : Z -> option error
}.

Inductive HandoverCase : Type :=
| Handed
| HandoverCtxDone.

Inductive IndexCase : Type :=
| GotIndex (index : Z)
| IndexCtxDone.

(** WaitLinearizableRead *)
Definition WaitLinearizableRead (e : ReadEnv) : Outcome (option error) :=
  match select [ if coordinator_receiving e then Some Handed else None;
                 _ ← ctx_err1 e; Some HandoverCtxDone ]
               (pick1 e) with
  | None => Waiting
  | Some HandoverCtxDone => Ret (ctx_err1 e)
  | Some Handed =>
      match select [ GotIndex <$> delivered e;
                     _ ← ctx_err2 e; Some IndexCtxDone ]
                   (pick2 e) with
      | None => Waiting
      | Some (GotIndex index) =>
          if decide (index = 0) then Ret (Some errReadIndex)
          else Ret (WaitForMark e index)
      | Some IndexCtxDone => Ret (ctx_err2 e)
      end
  end.

(** ** Invariants and concrete inputs used below *)

(** Parked senders exist only while the buffer is full. *)
Definition chan_wf {A} (c : chan A) : Prop :=
  sendq c = [] ∨ (cap c <= length (buf c))%nat.

(** A freshly constructed node with id 1: [NewNode rc_one (inr 0)]. *)
Definition rc_one : RaftContext := mkRaftContext 1 7 "alpha:7080".

Definition node_one : Node :=
  mkNode (make_chan 0) false "alpha:7080" 1 ∅ ∅ (make_chan 100) rc_one.

Definition peer_ops_example : list PeerOp :=
  [OpConnect 1 "alpha:7080"; OpConnect 2 "beta:7080";
   OpSetPeer 3 "gamma:7080"; OpDeletePeer 1; OpDeletePeer 2].

(** Two messages for [node_one]: one addressed to the node itself, one
    to node 2; both encode to the single byte "a". *)
Definition msg_to_self : Message := mkMessage 1 (inr [Byte.x61]).

Definition msg_to_two : Message := mkMessage 2 (inr [Byte.x61]).

(** A world in which the conf change with id 5 is pending on channel 0,
    a fresh channel of capacity 1. *)
Definition world_pending : World :=
  mkWorld (set_confChanges node_one {[ 5 := 0%nat ]}) [make_chan 1] [].

(** The frames of the messages addressed to [dest], in the order of
    [msgs]. *)
Fixpoint frames_for (dest : Z) (msgs : list sendmsg) : list byte :=
  match msgs with
  | [] => []
  | sm :: rest =>
      if decide (to sm = dest)
      then frame (data sm) ++ frames_for dest rest
      else frames_for dest rest
  end.

(** The size the slurp loop accounts for a sequence of messages. *)
Fixpoint framed_size (msgs : list sendmsg) : Z :=
  match msgs with
  | [] => 0
  | sm :: rest => (4 + len (data sm)) + framed_size rest
  end.

(** What a transmitter holds for one destination: its buffer, its
    failure flag, and the goroutines and warnings that name it. *)
Definition view (dest : Z) (t : Transmitter)
  : option (list byte) * option bool * list Spawn * list Warning :=
  (batches t !! dest, failedConn t !! dest,
   filter (fun s => sp_to s = dest) (spawned t),
   filter (fun w => w_to w = dest) (warnings t)).

(** The messages that a sequence of Send calls puts on the wire. *)
Definition wire_of (m : Message) : option sendmsg :=
  match Marshal m with
  | inr d => Some (mkSendmsg (To m) d)
  | inl _ => None
  end.

(** [node_one] once it knows the peers 2 and 3. *)
Definition node_with_peers : Node :=
  set_peers node_one (<[3 := "gamma:7080"%string]> (<[2 := "beta:7080"%string]> ∅)).

(** Pools in which every non-empty address has a healthy pool. *)
Definition pools_healthy : Pools :=
  fun addr =>
    if decide (addr = ""%string) then inl (errOther "no pool") else inr (mkPool addr).

(** The transmitter as BatchAndSendMessages starts it. *)
Definition tx_fresh : Transmitter := mkTx ∅ ∅ [] [].

(** The three messages of the end-to-end scenario: "a" and "bb" for
    node 2, "c" for node 3. *)
Definition msg_a : Message := mkMessage 2 (inr [Byte.x61]).

Definition msg_bb : Message := mkMessage 2 (inr [Byte.x62; Byte.x62]).

Definition msg_c : Message := mkMessage 3 (inr [Byte.x63]).

(** A payload of 2^24 zero bytes, built by doubling 24 times. *)
Definition double_bytes (l : list byte) : list byte := l ++ l.

Definition payload_16MiB : list byte := Nat.iter 24 double_bytes [Byte.x00].

Definition msg_16MiB : Message := mkMessage 2 (inr payload_16MiB).

(** [node_with_peers] with a raft handle, as a world without pending
    conf changes. *)
Definition world_raft : World :=
  mkWorld (set_has_raft node_with_peers true) [] [].

(** The caller's context is cancelled while [ProposeConfChange] is
    blocked, 3 seconds have not passed, and the engine returns the
    context's error. [draw] is the id that [rand.Uint64()] yields. *)
Definition env_cancelled (draw : Z) : ProposeEnv :=
  mkProposeEnv [draw] (Some ctxCanceled) (mkCtxObs (Some ctxCanceled) false)
               (fun _ => []) (mkCtxObs (Some ctxCanceled) false) 0.

(** [k] calls in that situation, with the ids [first], [first + 1], ... *)
Definition envs_cancelled (first k : nat) : list ProposeEnv :=
  map (fun i => env_cancelled (Z.of_nat i)) (seq first k).

(** An encoder of pb.RaftContext that accepts every value. *)
Definition rcMarshal_ok (rc : RaftContext) : error + list byte :=
  inr (le_split 8 (rc_Id rc)).

(** A read state with another token than the one [e] generated. *)
Definition mismatched (e : ReadIndexEnv) (o : WaitObs) : Prop :=
  ∃ rs, wait_select o = Some (CaseReadState rs)
        ∧ rs_RequestCtx rs ≠ activeRctx_of e.

(** A coordinator with a raft handle and two pending requests, each
    with its fresh one-shot channel: request 0 has been received,
    request 1 is parked on [requestCh]. *)
Definition coordinator_two : Coordinator :=
  mkCoordinator (set_has_raft node_one true) [make_chan 1; make_chan 1] [].

Definition parked_request : chan linReadReq :=
  mkChan 0 [] [mkLinReadReq 1].

(** One call of readIndex with the random bits 7: a stale read state
    for the token of 9 arrives first, then the read state for the
    token of 7 with index 42. *)
Definition env_stale_then_match : ReadIndexEnv :=
  mkReadIndexEnv 7 None
    [mkWaitObs false (Some (mkReadState 5 (le_split 8 9))) false 0;
     mkWaitObs false (Some (mkReadState 42 (le_split 8 7))) false 0].

(** Calls of WaitLinearizableRead: the coordinator never takes the
    request and the context expires; the coordinator delivers 0; the
    coordinator delivers 42 and the watermark wait succeeds; the
    context expires before any delivery. *)
Definition read_env_not_taken : ReadEnv :=
  mkReadEnv false (Some ctxDeadlineExceeded) 0 None None 0 (fun _ => None).

Definition read_env_zero : ReadEnv :=
  mkReadEnv true None 0 (Some 0) None 0 (fun _ => None).

Definition read_env_index : ReadEnv :=
  mkReadEnv true None 0 (Some 42) None 0
            (fun i => if decide (i = 42) then None else Some (errOther "mark")).

Definition read_env_expired : ReadEnv :=
  mkReadEnv true None 0 None (Some ctxCanceled) 0 (fun _ => None).

(** One call of proposeConfChange in which the engine accepts the
    proposal and later completes it without error. *)
Definition env_applied (draw : Z) : ProposeEnv :=
  mkProposeEnv [draw] None (mkCtxObs None false)
               (fun id => [(id, None)]) (mkCtxObs None false) 0.

(** One call of readIndex with the random bits 7 during which only the
    stale read state arrives. *)
Definition env_stale_only : ReadIndexEnv :=
  mkReadIndexEnv 7 None
    [mkWaitObs false (Some (mkReadState 5 (le_split 8 9))) false 0].

(** The payloads of the messages addressed to [dest], in the order of
    [msgs]. *)
Definition payloads_for (dest : Z) (msgs : list sendmsg) : list (list byte) :=
  map data (filter (fun sm => to sm = dest) msgs).

(** Whether a destination cannot be shipped to: the directory has no
    address for it, or [Get().Get] fails for the address. *)
Definition unreachable (n : Node) (pools : Pools) (dest : Z) : Prop :=
  peers n !! dest = None ∨ ∃ e, pools (fst (Peer n dest)) = inl e.

(** A transmitter that holds the frame of "a" for node 2 from a round
    that failed, with the failure flag set. *)
Definition tx_failed_once : Transmitter :=
  mkTx {[ 2 := frame [Byte.x61] ]} {[ 2 := true ]} [] [].

(** [node_one], which knows no peer, with the message "bb" for node 2
    queued. *)
Definition node_one_queued : Node :=
  set_messages node_one (mkChan 100 [mkSendmsg 2 [Byte.x62; Byte.x62]] []).

(** [node_with_peers] with "a" and "bb" queued for node 2 and "c" for
    node 3. *)
Definition node_with_peers_queued : Node :=
  set_messages node_with_peers
    (mkChan 100 [mkSendmsg 2 [Byte.x61]; mkSendmsg 2 [Byte.x62; Byte.x62];
                 mkSendmsg 3 [Byte.x63]] []).

(** ** The store: Snapshot, SaveToStorage, PastLife *)

(** raftpb.Snapshot and raftpb.HardState, as far as this file reads
    them: [snap_Index] is [sp.Metadata.Index]. *)
Record Snapshot : Type := mkSnapshot {
  snap_Index : Z
}.

Record HardState : Type := mkHardState {
  hs_Term : Z;
  hs_Vote : Z;
  hs_Commit : Z
}.

(** What the three queries of PastLife on [n.Store] return. *)
Record Store : Type := mkStore {
  store_Snapshot : error + Snapshot;
  store_HardState : error + HardState;
  store_NumEntries : error + Z
}.


(** SaveToStorage. [results] lists what the successive calls of
    [n.Store.Save] return; the function returns the errors it logged,
    oldest first. *)
Fixpoint SaveToStorage (results : list (option error)) : Outcome (list error) :=
  match results with
  | [] => Waiting
  | None :: _ => Ret []
  | Some err :: rest => logged ← SaveToStorage rest; Ret (err :: logged)
  end.

(** The buffer of a channel never exceeds its capacity, and senders are
    parked only while it is full. *)
Definition chan_bounded {A} (c : chan A) : Prop :=
  (length (buf c) <= cap c)%nat
  ∧ (sendq c = [] ∨ length (buf c) = cap c).


Definition store_new : Store :=
  mkStore (inr (mkSnapshot 0)) (inr (mkHardState 0 0 0)) (inr 1).



(** One call of readIndex whose context expires before any read state
    arrives. *)
Definition env_timed_out : ReadIndexEnv :=
  mkReadIndexEnv 3 None [mkWaitObs false None true 0].

(** A turn of RunReadIndexLoop that finds request 0 on [requestCh] and
    answers it with [env_stale_then_match]; then a turn that finds the
    closer closed. *)
Definition coordinator_waiting : Coordinator :=
  mkCoordinator (set_requestCh (set_has_raft node_one true)
                   (mkChan 0 [] [mkLinReadReq 0; mkLinReadReq 1]))
                [make_chan 1; make_chan 1] [].

Definition loop_obs_example : list LoopObs :=
  [mkLoopObs false None 0 [env_timed_out; env_stale_then_match];
   mkLoopObs false (Some (mkReadState 9 [])) 0 []].

(** * Properties *)

(** ** Channels *)

Lemma make_chan_wf {A} (k : nat) : chan_wf (make_chan (A := A) k).
Proof. by left. Qed.

Lemma chan_send_wf {A} (c : chan A) (x : A) : chan_wf c -> chan_wf (chan_send c x).
Proof.
  unfold chan_wf, chan_send. intros Hwf.
  destruct (Nat.ltb_spec (length (buf c)) (cap c)) as [Hlt | Hge]; simpl.
  - destruct Hwf as [Hq | Hfull]; [by left | lia].
  - right. lia.
Qed.

(** A send keeps every earlier value and queues the new one last. *)
Lemma chan_contents_send {A} (c : chan A) (x : A) :
  chan_wf c -> chan_contents (chan_send c x) = chan_contents c ++ [x].
Proof.
  unfold chan_wf, chan_send, chan_contents. intros Hwf.
  destruct (Nat.ltb_spec (length (buf c)) (cap c)) as [Hlt | Hge]; simpl.
  - destruct Hwf as [Hq | Hfull]; [| lia].
    rewrite Hq. simpl. by rewrite !app_nil_r.
  - by rewrite app_assoc.
Qed.

(** A receive takes the oldest value and keeps the order of the rest. *)
Lemma chan_recv_Some {A} (c c' : chan A) (x : A) :
  chan_recv c = Some (x, c') -> chan_contents c = x :: chan_contents c'.
Proof.
  unfold chan_recv, chan_contents.
  destruct (buf c) as [| y b], (sendq c) as [| s q]; intros H;
    simplify_eq; simpl; try done.
  by rewrite <- app_assoc.
Qed.

Lemma chan_recv_None {A} (c : chan A) :
  chan_recv c = None -> chan_contents c = [].
Proof.
  unfold chan_recv, chan_contents.
  by destruct (buf c), (sendq c).
Qed.

Lemma chan_recv_contents {A} (c : chan A) (x : A) (l : list A) :
  chan_contents c = x :: l ->
  ∃ c', chan_recv c = Some (x, c') ∧ chan_contents c' = l.
Proof.
  intros Hc. destruct (chan_recv c) as [[y c'] |] eqn:Hr.
  - apply chan_recv_Some in Hr. rewrite Hr in Hc. simplify_eq. eauto.
  - apply chan_recv_None in Hr. congruence.
Qed.

(** ** NewNode *)

(** A constructed node carries the id of its RaftContext in both places
    where the code reads it, knows no peer, has no pending conf change,
    no raft handle, and an empty message queue of capacity 100. *)
Lemma NewNode_Ret (rc : RaftContext) (snap : error + Z) (n : Node) :
  NewNode rc snap = Ret n ->
  Id n = rc_Id rc ∧ rc_Id (RaftContext_ n) = rc_Id rc
  ∧ peers n = ∅ ∧ confChanges n = ∅ ∧ has_raft n = false
  ∧ messages n = make_chan 100.
Proof. unfold NewNode. destruct snap; intros H; by simplify_eq. Qed.

(** ** The peer directory *)

Lemma SetPeer_Ret (n n' : Node) (pid : Z) (addr : string) :
  SetPeer n pid addr = Ret n' ->
  n' = set_peers n (<[pid := addr]> (peers n)).
Proof. unfold SetPeer. case_decide; congruence. Qed.

(** One call keeps the node's id and, unless it is [SetPeer] on that id,
    keeps the node out of its own directory. *)
Lemma run_op_no_self (n n' : Node) (op : PeerOp) :
  sets_self (Id n) op = false ->
  peers n !! Id n = None ->
  run_op n op = Ret n' ->
  Id n' = Id n ∧ peers n' !! Id n' = None.
Proof.
  intros Hop Hinv Hrun. destruct op as [pid addr | pid addr | pid]; simpl in *.
  - unfold Connect in Hrun.
    destruct (decide (pid = Id n)) as [-> | Hne]; simpl in Hrun.
    { by simplify_eq. }
    destruct (Peer n pid) as [paddr ok].
    destruct (ok && bool_decide (paddr = addr)); simpl in Hrun.
    { by simplify_eq. }
    assert (∃ n1, SetPeer n pid addr = Ret n1 ∧ n' = n1) as (n1 & Hset & ->).
    { destruct (decide (addr = MyAddr n));
        destruct (SetPeer n pid addr); simpl in Hrun; simplify_eq; eauto. }
    apply SetPeer_Ret in Hset as ->. simpl.
    split; [done |]. by rewrite lookup_insert_ne.
  - apply bool_decide_eq_false in Hop.
    apply SetPeer_Ret in Hrun as ->. simpl.
    split; [done |]. by rewrite lookup_insert_ne.
  - simplify_eq. unfold DeletePeer.
    destruct (decide (pid = Id n)); simpl; [done |].
    split; [done |]. by rewrite lookup_delete_ne.
Qed.

Lemma run_ops_no_self (ops : list PeerOp) (n n' : Node) :
  Forall (fun op => sets_self (Id n) op = false) ops ->
  peers n !! Id n = None ->
  run_ops n ops = Ret n' ->
  Id n' = Id n ∧ peers n' !! Id n' = None.
Proof.
  revert n. induction ops as [| op ops IH]; intros n Hops Hinv Hrun; simpl in Hrun.
  - by simplify_eq.
  - apply Forall_cons in Hops as [Hop Hops].
    destruct (run_op n op) as [n1 | | | |] eqn:Hop1; simpl in Hrun; try done.
    destruct (run_op_no_self _ _ _ Hop Hinv Hop1) as [Hid Hinv1].
    rewrite <- Hid in Hops.
    destruct (IH n1 Hops Hinv1 Hrun) as [Hid' Hinv']. split; congruence.
Qed.

(** C9 (as amended): starting from a freshly constructed node, after
    any sequence of Connect, SetPeer and DeletePeer calls that runs to
    its end and in which no SetPeer call is given the node's own id, the
    node's id is unchanged and the peers map has no entry for it. Connect
    and DeletePeer do nothing on the node's own id; SetPeer has no such
    test. *)
Theorem no_self_peer_unless_SetPeer (rc : RaftContext) (snap : error + Z)
    (n0 n : Node) (ops : list PeerOp) :
  NewNode rc snap = Ret n0 ->
  Forall (fun op => sets_self (rc_Id rc) op = false) ops ->
  run_ops n0 ops = Ret n ->
  Id n = rc_Id rc ∧ peers n !! Id n = None.
Proof.
  intros Hnew Hops Hrun.
  assert (Id n0 = rc_Id rc ∧ peers n0 = ∅) as [Hid Hempty].
  { unfold NewNode in Hnew. destruct snap; by simplify_eq. }
  rewrite <- Hid in Hops.
  destruct (run_ops_no_self ops n0 n Hops) as [Hid' Hinv]; try done.
  - by rewrite Hempty.
  - split; congruence.
Qed.

Lemma no_self_peer_unless_SetPeer_witness :
  ∃ n, run_ops node_one peer_ops_example = Ret n
       ∧ Id n = 1 ∧ peers n !! Id n = None.
Proof.
  eexists. split; [vm_compute; reflexivity |].
  apply (no_self_peer_unless_SetPeer rc_one (inr 0) node_one _
           peer_ops_example).
  - reflexivity.
  - repeat constructor.
  - vm_compute. reflexivity.
Defined.

(** C9 as stated fails: on a freshly constructed node with id 1, the
    single call SetPeer(1, addr) stores an entry for the node's own id,
    and a following DeletePeer(1) leaves it there. *)
Lemma SetPeer_self_counterexample :
  ∃ n, run_ops node_one [OpSetPeer 1 "alpha:7080"; OpDeletePeer 1] = Ret n
       ∧ NewNode rc_one (inr 0) = Ret node_one
       ∧ peers n !! Id n = Some "alpha:7080"%string.
Proof. eexists. split; [vm_compute; reflexivity |]. split; reflexivity. Qed.

(** ** Send *)

Lemma Send_wf (n n' : Node) (m : Message) :
  chan_wf (messages n) -> Send n m = Ret n' -> chan_wf (messages n').
Proof.
  unfold Send. intros Hwf Hs.
  case_decide; [done |]. destruct (Marshal m); simplify_eq. simpl.
  by apply chan_send_wf.
Qed.

(** C10: a message addressed to the node's own id makes Send end in the
    assertion failure "Sending message to itself"; the call yields no
    node state, nothing is sent on the channel. For any other
    destination the assertion cannot fail, and a message that the
    encoder accepts is handed to the channel: appended to the buffer, or
    parked behind it when the buffer is full, after everything queued
    before and with nothing else in the node changed. *)
Theorem Send_self_assertion (n : Node) (m : Message) :
  (To m = Id n ->
     Send n m = AssertFailed "Sending message to itself") ∧
  (To m ≠ Id n ->
     (∀ msg, Send n m ≠ AssertFailed msg) ∧
     ∀ d, Marshal m = inr d ->
       Send n m = Ret (set_messages n (chan_send (messages n) (mkSendmsg (To m) d)))
       ∧ (chan_wf (messages n) ->
            chan_contents (chan_send (messages n) (mkSendmsg (To m) d))
            = chan_contents (messages n) ++ [mkSendmsg (To m) d])).
Proof.
  unfold Send. split.
  - intros Heq. by rewrite decide_True.
  - intros Hne. rewrite decide_False by congruence. split.
    + intros msg. by destruct (Marshal m).
    + intros d ->. split; [done |]. apply chan_contents_send.
Qed.

Lemma Send_self_assertion_witness :
  Send node_one msg_to_self = AssertFailed "Sending message to itself"
  ∧ Send node_one msg_to_two
    = Ret (set_messages node_one
             (chan_send (messages node_one) (mkSendmsg 2 [Byte.x61])))
  ∧ chan_contents (chan_send (messages node_one) (mkSendmsg 2 [Byte.x61]))
    = [mkSendmsg 2 [Byte.x61]].
Proof.
  split.
  - apply (proj1 (Send_self_assertion node_one msg_to_self)). reflexivity.
  - assert (To msg_to_two ≠ Id node_one) as Hne by (vm_compute; discriminate).
    destruct (proj2 (Send_self_assertion node_one msg_to_two) Hne) as [_ H].
    destruct (H [Byte.x61] eq_refl) as [Hret Hcontents].
    split; [exact Hret |].
    apply (Hcontents (make_chan_wf 100)).
Defined.

(** ** DoneConfChange *)

(** Once completed, an id is no longer pending. *)
Lemma DoneConfChange_not_pending (w : World) (id : Z) (err : option error) :
  confChanges (node (DoneConfChange w id err)) !! id = None.
Proof.
  unfold DoneConfChange.
  destruct (confChanges (node w) !! id) as [ch |] eqn:Hch; simpl; [| done].
  apply lookup_delete_eq.
Qed.

(** C7: when [id] is pending, DoneConfChange removes the entry and
    sends [err] once on the stored channel, leaving every other channel
    and every other field as they were; when [id] is not pending the
    call changes nothing; hence a second completion for the same id
    changes nothing and delivers nothing. *)
Theorem DoneConfChange_once (w : World) (id : Z) (err : option error) :
  (∀ ch, confChanges (node w) !! id = Some ch ->
     confChanges (node (DoneConfChange w id err))
       = delete id (confChanges (node w))
     ∧ (∀ c, errchans w !! ch = Some c ->
          errchans (DoneConfChange w id err) !! ch = Some (chan_send c err)
          ∧ (chan_wf c ->
               chan_contents (chan_send c err) = chan_contents c ++ [err]))
     ∧ (∀ j, j ≠ ch ->
          errchans (DoneConfChange w id err) !! j = errchans w !! j)
     ∧ peers (node (DoneConfChange w id err)) = peers (node w)
     ∧ messages (node (DoneConfChange w id err)) = messages (node w)
     ∧ propose_calls (DoneConfChange w id err) = propose_calls w)
  ∧ (confChanges (node w) !! id = None -> DoneConfChange w id err = w)
  ∧ (∀ err', DoneConfChange (DoneConfChange w id err) id err'
             = DoneConfChange w id err).
Proof.
  split; [| split].
  - intros ch Hch. unfold DoneConfChange. rewrite Hch. simpl.
    split; [done |]. split; [| split; [| done]].
    + intros c Hc. split; [| apply chan_contents_send].
      by rewrite list_lookup_alter_eq, Hc.
    + intros j Hj. by rewrite list_lookup_alter_ne.
  - intros Hnone. unfold DoneConfChange. by rewrite Hnone.
  - intros err'.
    pose proof (DoneConfChange_not_pending w id err) as Hgone.
    unfold DoneConfChange at 1. by rewrite Hgone.
Qed.

Lemma DoneConfChange_once_witness :
  confChanges (node (DoneConfChange world_pending 5 None)) = delete 5 {[ 5 := 0%nat ]}
  ∧ errchans (DoneConfChange world_pending 5 None) !! 0%nat
    = Some (chan_send (make_chan 1) None)
  ∧ chan_contents (chan_send (make_chan 1) (None : option error)) = [None]
  ∧ DoneConfChange world_pending 6 None = world_pending.
Proof.
  destruct (DoneConfChange_once world_pending 5 None) as [Hfound _].
  destruct (Hfound 0%nat eq_refl) as (Hdel & Hsend & _).
  destruct (Hsend (make_chan 1) eq_refl) as [Hch Hcontents].
  split; [exact Hdel |]. split; [exact Hch |].
  split; [exact (Hcontents (make_chan_wf 1)) |].
  apply (proj1 (proj2 (DoneConfChange_once world_pending 6 None))).
  reflexivity.
Defined.

(** ** The frames *)

Lemma length_frame (d : list byte) : length (frame d) = (4 + length d)%nat.
Proof. unfold frame. by rewrite length_app, length_le_split. Qed.

(** A frame starts with the length of its payload, modulo 2^32, in
    four little-endian bytes, and continues with the payload. *)
Lemma frame_header (d : list byte) :
  le_combine (take 4 (frame d)) = len d mod 2 ^ 32 ∧ drop 4 (frame d) = d.
Proof.
  unfold frame.
  rewrite take_app_length', drop_app_length' by (by rewrite length_le_split).
  split; [| done].
  rewrite le_combine_split. unfold uint32.
  change (Z.of_nat 4 * 8) with 32. apply Z.mod_mod. lia.
Qed.

Lemma frame_not_nil (d : list byte) : frame d ≠ [].
Proof.
  intros H. apply (f_equal length) in H. rewrite length_frame in H.
  simpl in H. lia.
Qed.

Lemma frames_for_app (dest : Z) (a b : list sendmsg) :
  frames_for dest (a ++ b) = frames_for dest a ++ frames_for dest b.
Proof.
  induction a as [| sm a IH]; simpl; [done |].
  case_decide; [| done]. by rewrite IH, app_assoc.
Qed.

Lemma framed_size_app (a b : list sendmsg) :
  framed_size (a ++ b) = framed_size a + framed_size b.
Proof. induction a as [| sm a IH]; simpl; lia. Qed.

Lemma framed_size_nonneg (a : list sendmsg) : 0 <= framed_size a.
Proof. induction a as [| sm a IH]; simpl; unfold len in *; lia. Qed.

Lemma buffer_of_append_frame (b : gmap Z (list byte)) (sm : sendmsg) (dest : Z) :
  buffer_of (append_frame b sm) dest
  = buffer_of b dest ++ frames_for dest [sm].
Proof.
  unfold append_frame, buffer_of at 1. simpl.
  destruct (decide (to sm = dest)) as [<- | Hne].
  - by rewrite lookup_insert_eq, app_nil_r.
  - rewrite lookup_insert_ne by done. by rewrite app_nil_r.
Qed.

(** ** The slurp loop *)

(** With fuel above the number of queued messages the loop ends. It
    takes a non-empty prefix of the messages before it, stops at the
    first message that lifts the accounted size above the soft limit,
    leaves the others queued in order, and appends to each buffer the
    frames of the taken messages for that destination, in order. *)
Lemma slurp_loop_spec (fuel : nat) :
  ∀ (b : gmap Z (list byte)) (total : Z) (sm : sendmsg) (ch : chan sendmsg),
    (length (chan_contents ch) < fuel)%nat ->
    total <= messageBatchSoftLimit ->
    ∃ consumed rest b' ch',
      slurp_loop fuel b total sm ch = Some (b', ch')
      ∧ sm :: chan_contents ch = consumed ++ rest
      ∧ chan_contents ch' = rest
      ∧ (∀ dest, buffer_of b' dest = buffer_of b dest ++ frames_for dest consumed)
      ∧ (∃ init last, consumed = init ++ [last]
                      ∧ total + framed_size init <= messageBatchSoftLimit)
      ∧ (rest ≠ [] -> messageBatchSoftLimit < total + framed_size consumed).
Proof.
  induction fuel as [| fuel IH]; intros b total sm ch Hfuel Htotal; [lia |].
  simpl.
  destruct (Z.ltb_spec messageBatchSoftLimit (total + (4 + len (data sm))))
    as [Hover | Hunder].
  - exists [sm], (chan_contents ch), (append_frame b sm), ch.
    repeat split; try done.
    + intros dest. apply buffer_of_append_frame.
    + exists [], sm. split; [done |]. simpl. lia.
    + intros _. simpl. lia.
  - destruct (chan_recv ch) as [[sm' ch1] |] eqn:Hrecv.
    + apply chan_recv_Some in Hrecv. rewrite Hrecv in *. simpl in Hfuel.
      destruct (IH (append_frame b sm) (total + (4 + len (data sm))) sm' ch1)
        as (consumed & rest & b' & ch' & Hloop & Hsplit & Hrest & Hbuf & Hinit & Hlim);
        [lia | lia |].
      exists (sm :: consumed), rest, b', ch'.
      split; [done |]. split; [by rewrite Hsplit |]. split; [done |].
      split; [| split].
      * intros dest. rewrite Hbuf, buffer_of_append_frame.
        rewrite <- app_assoc. f_equal.
        by rewrite <- frames_for_app.
      * destruct Hinit as (init & last & -> & Hle).
        exists (sm :: init), last. split; [done |]. simpl. lia.
      * intros Hne. specialize (Hlim Hne). simpl. lia.
    + apply chan_recv_None in Hrecv. rewrite Hrecv.
      exists [sm], [], (append_frame b sm), ch.
      repeat split; try done.
      * intros dest. apply buffer_of_append_frame.
      * exists [], sm. split; [done |]. simpl. lia.
Qed.

Lemma slurp_spec (n : Node) (b : gmap Z (list byte)) :
  chan_contents (messages n) ≠ [] ->
  ∃ consumed rest b' ch',
    slurp n b = Ret (b', ch')
    ∧ chan_contents (messages n) = consumed ++ rest
    ∧ chan_contents ch' = rest
    ∧ (∀ dest, buffer_of b' dest = buffer_of b dest ++ frames_for dest consumed)
    ∧ (∃ init last, consumed = init ++ [last]
                    ∧ framed_size init <= messageBatchSoftLimit)
    ∧ (rest ≠ [] -> messageBatchSoftLimit < framed_size consumed).
Proof.
  intros Hne. unfold slurp.
  destruct (chan_contents (messages n)) as [| sm l] eqn:Hc; [done |].
  destruct (chan_recv_contents _ _ _ Hc) as (ch & -> & Hch).
  destruct (slurp_loop_spec (S (length (chan_contents ch))) b 0 sm ch)
    as (consumed & rest & b' & ch' & -> & Hsplit & Hrest & Hbuf & Hinit & Hlim);
    [lia | unfold messageBatchSoftLimit; lia |].
  exists consumed, rest, b', ch'. rewrite Hch in Hsplit.
  repeat split; try done.
Qed.

(** ** The second loop *)

(** A turn for one destination leaves the others as they are. *)
Lemma ship_one_other (n : Node) (pools : Pools) (i dest : Z)
    (buf : list byte) (t : Transmitter) :
  i ≠ dest -> view dest (ship_one n pools i buf t) = view dest t.
Proof.
  intros Hne. unfold ship_one, view.
  destruct (len buf =? 0); [done |].
  destruct (Peer n i) as [addr has].
  destruct has, (pools addr) as [e | pool]; simpl;
    try (destruct (default false (failedConn t !! i)); simpl);
    rewrite ?lookup_insert_ne by done;
    rewrite ?filter_app, ?filter_cons_False, ?filter_nil, ?app_nil_r by done;
    done.
Qed.

(** What a turn does to its own destination depends only on what the
    transmitter holds for that destination. *)
Lemma ship_one_local (n : Node) (pools : Pools) (i : Z) (buf : list byte)
    (t1 t2 : Transmitter) :
  view i t1 = view i t2 ->
  view i (ship_one n pools i buf t1) = view i (ship_one n pools i buf t2).
Proof.
  unfold view. intros Hv. injection Hv as Hb Hf Hs Hw.
  unfold ship_one.
  destruct (len buf =? 0); simpl; [congruence |].
  destruct (Peer n i) as [addr has].
  destruct has, (pools addr) as [e | pool]; simpl;
    try (rewrite <- Hf; destruct (default false (failedConn t1 !! i)); simpl);
    rewrite ?lookup_insert_eq, ?filter_app, ?Hb, ?Hs, ?Hw; try done;
    by rewrite ?Hf.
Qed.

(** The second loop does to each destination what the turn for that
    destination alone does to the state the loop starts from. *)
Lemma ship_view (n : Node) (pools : Pools) (b : gmap Z (list byte))
    (fc : gmap Z bool) (dest : Z) :
  view dest (ship n pools b fc)
  = match b !! dest with
    | Some buf => view dest (ship_one n pools dest buf (mkTx b fc [] []))
    | None => view dest (mkTx b fc [] [])
    end.
Proof.
  unfold ship.
  apply (map_fold_weak_ind
           (fun t m =>
              view dest t
              = match m !! dest with
                | Some buf => view dest (ship_one n pools dest buf (mkTx b fc [] []))
                | None => view dest (mkTx b fc [] [])
                end)).
  - by rewrite lookup_empty.
  - intros i buf m t Hfresh IH.
    destruct (decide (i = dest)) as [-> | Hne].
    + rewrite lookup_insert_eq. apply ship_one_local.
      by rewrite IH, Hfresh.
    + rewrite lookup_insert_ne by done.
      by rewrite ship_one_other.
Qed.

(** A destination with a non-empty buffer, a known address and a healthy
    pool: one goroutine gets the whole buffer and the buffer is reset. *)
Lemma ship_healthy (n : Node) (pools : Pools) (b : gmap Z (list byte))
    (fc : gmap Z bool) (dest : Z) (buf : list byte) (addr : string) (pool : Pool) :
  b !! dest = Some buf -> buf ≠ [] ->
  peers n !! dest = Some addr -> pools addr = inr pool ->
  view dest (ship n pools b fc)
  = (Some [], Some false, [mkSpawn dest pool buf], []).
Proof.
  intros Hb Hbuf Hpeer Hpool. rewrite ship_view, Hb.
  unfold ship_one, Peer. rewrite Hpeer, Hpool.
  destruct buf as [| x buf]; [done |].
  unfold view. simpl. rewrite !lookup_insert_eq.
  by rewrite filter_cons_True.
Qed.

(** A destination with a non-empty buffer and no address or no healthy
    pool: nothing is started, the flag is set, the warning is logged
    unless the flag was set already, and the buffer is left as it is. *)
Lemma ship_unhealthy (n : Node) (pools : Pools) (b : gmap Z (list byte))
    (fc : gmap Z bool) (dest : Z) (buf : list byte) :
  b !! dest = Some buf -> buf ≠ [] ->
  peers n !! dest = None ∨ (∃ e, pools (fst (Peer n dest)) = inl e) ->
  view dest (ship n pools b fc)
  = (Some buf,
     if default false (fc !! dest) then fc !! dest else Some true,
     [],
     if default false (fc !! dest) then []
     else [mkWarning dest (fst (Peer n dest)) (err_of (pools (fst (Peer n dest))))]).
Proof.
  intros Hb Hbuf Hbad. rewrite ship_view, Hb.
  unfold ship_one.
  destruct buf as [| x buf]; [done |]. simpl.
  destruct (Peer n dest) as [addr has] eqn:HP. simpl in *.
  assert (has = false ∨ ∃ e, pools addr = inl e) as Hcase.
  { destruct Hbad as [Hnone | He]; [left | by right].
    unfold Peer in HP. rewrite Hnone in HP. congruence. }
  transitivity
    (view dest
       (if default false (fc !! dest) then mkTx b fc [] []
        else mkTx b (<[dest := true]> fc) []
                  ([] ++ [mkWarning dest addr (err_of (pools addr))]))).
  { f_equal. destruct Hcase as [-> | [e ->]]; [done | by destruct has]. }
  unfold view. destruct (default false (fc !! dest)); simpl.
  - by rewrite Hb.
  - rewrite Hb, lookup_insert_eq. by rewrite filter_cons_True.
Qed.

(** ** A round of the transmitter *)

(** Sends that all return leave the channel holding what it held before
    followed by one message per call, in the order of the calls, and
    change nothing else that the transmitter reads. *)
Lemma sends_contents (ms : list Message) :
  ∀ n0 n : Node,
    chan_wf (messages n0) ->
    run_activities n0 (map ActSend ms) = Ret n ->
    chan_contents (messages n)
    = chan_contents (messages n0) ++ omap wire_of ms
    ∧ length (omap wire_of ms) = length ms
    ∧ peers n = peers n0.
Proof.
  induction ms as [| m ms IH]; intros n0 n Hwf Hrun; simpl in Hrun.
  - simplify_eq. simpl. by rewrite app_nil_r.
  - destruct (Send n0 m) as [n1 | | | |] eqn:Hsend; simpl in Hrun; try done.
    pose proof (Send_wf _ _ _ Hwf Hsend) as Hwf1.
    destruct (IH n1 n Hwf1 Hrun) as (Hc & Hlen & Hp).
    unfold Send in Hsend. case_decide; [done |].
    destruct (Marshal m) as [e | d] eqn:HM; simplify_eq.
    assert (wire_of m = Some (mkSendmsg (To m) d)) as Hwire
      by (unfold wire_of; by rewrite HM).
    simpl in *. rewrite Hwire. simpl.
    rewrite Hc, chan_contents_send by done.
    rewrite <- app_assoc. split; [done |]. split; [exact (f_equal S Hlen) | done].
Qed.

(** C1 (as amended): take Send calls that all return, issued on a
    drained queue before the transmitter's next round. The round takes
    the shortest prefix of the queued messages whose accounted size
    (4 bytes plus the payload, per message) exceeds 10,000,000 bytes, or
    all of them when no prefix does (in particular whenever their total
    accounted size is at most 10,000,000); the others stay queued in
    order. For every destination whose buffer was empty when the round
    began and that has an address and a healthy pool, the round hands to
    one sender goroutine exactly the frames of the taken messages for
    that destination, in arrival order, a frame being the payload
    length as 4 little-endian bytes followed by the payload. *)
Theorem batch_keeps_arrival_order (n0 n : Node) (ms : list Message)
    (pools : Pools) (t : Transmitter) :
  chan_contents (messages n0) = [] ->
  chan_wf (messages n0) ->
  ms ≠ [] ->
  run_activities n0 (map ActSend ms) = Ret n ->
  ∃ consumed rest n' t',
    round n pools t = Ret (n', t')
    ∧ length (omap wire_of ms) = length ms
    ∧ omap wire_of ms = consumed ++ rest
    ∧ chan_contents (messages n') = rest
    ∧ (∃ init last, consumed = init ++ [last]
                    ∧ framed_size init <= messageBatchSoftLimit)
    ∧ (rest ≠ [] -> messageBatchSoftLimit < framed_size consumed)
    ∧ (framed_size (omap wire_of ms) <= messageBatchSoftLimit -> rest = [])
    ∧ ∀ dest addr pool,
        buffer_of (batches t) dest = [] ->
        frames_for dest consumed ≠ [] ->
        peers n !! dest = Some addr ->
        pools addr = inr pool ->
        filter (fun s => sp_to s = dest) (spawned t')
        = [mkSpawn dest pool (frames_for dest consumed)].
Proof.
  intros Hdrained Hwf Hms Hrun.
  destruct (sends_contents ms n0 n Hwf Hrun) as (Hc & Hlen & Hp).
  rewrite Hdrained in Hc. simpl in Hc.
  assert (chan_contents (messages n) ≠ []) as Hne.
  { rewrite Hc. intros Hnil. apply (f_equal length) in Hnil.
    rewrite Hlen in Hnil. by destruct ms. }
  destruct (slurp_spec n (batches t) Hne)
    as (consumed & rest & b' & ch' & Hslurp & Hsplit & Hrest & Hbuf & Hinit & Hlim).
  exists consumed, rest, (set_messages n ch'), (ship n pools b' (failedConn t)).
  unfold round. rewrite Hslurp. simpl.
  rewrite Hc in Hsplit.
  split; [done |]. split; [done |]. split; [done |]. split; [done |].
  split; [done |]. split; [done |]. split.
  - intros Hsmall. destruct rest as [| r rest]; [done |].
    assert (r :: rest ≠ []) as Hr by done. specialize (Hlim Hr).
    rewrite Hsplit, framed_size_app in Hsmall.
    pose proof (framed_size_nonneg (r :: rest)). lia.
  - intros dest addr pool Hempty Hframes Hpeer Hpool.
    specialize (Hbuf dest). rewrite Hempty in Hbuf. simpl in Hbuf.
    assert (b' !! dest = Some (frames_for dest consumed)) as Hb.
    { unfold buffer_of in Hbuf.
      destruct (b' !! dest) as [buf |]; [by rewrite Hbuf | congruence]. }
    pose proof (ship_healthy n pools b' (failedConn t) dest _ addr pool
                  Hb Hframes Hpeer Hpool) as Hview.
    unfold view in Hview. by simplify_eq.
Qed.

Lemma batch_keeps_arrival_order_witness :
  ∃ n' t',
    round (set_messages node_with_peers
             (mkChan 100 [mkSendmsg 2 [Byte.x61]; mkSendmsg 2 [Byte.x62; Byte.x62];
                          mkSendmsg 3 [Byte.x63]] []))
          pools_healthy tx_fresh = Ret (n', t')
    ∧ chan_contents (messages n') = []
    ∧ filter (fun s => sp_to s = 2) (spawned t')
      = [mkSpawn 2 (mkPool "beta:7080")
           [Byte.x01; Byte.x00; Byte.x00; Byte.x00; Byte.x61;
            Byte.x02; Byte.x00; Byte.x00; Byte.x00; Byte.x62; Byte.x62]]
    ∧ filter (fun s => sp_to s = 3) (spawned t')
      = [mkSpawn 3 (mkPool "gamma:7080")
           [Byte.x01; Byte.x00; Byte.x00; Byte.x00; Byte.x63]].
Proof.
  destruct (batch_keeps_arrival_order node_with_peers
              (set_messages node_with_peers
                 (mkChan 100 [mkSendmsg 2 [Byte.x61]; mkSendmsg 2 [Byte.x62; Byte.x62];
                              mkSendmsg 3 [Byte.x63]] []))
              [msg_a; msg_bb; msg_c] pools_healthy tx_fresh)
    as (consumed & rest & n' & t' & Hround & _ & Hsplit & Hrest & _ & _ & Hall & Hship).
  - reflexivity.
  - apply make_chan_wf.
  - discriminate.
  - vm_compute. reflexivity.
  - assert (rest = []) as -> by (apply Hall; vm_compute; discriminate).
    rewrite app_nil_r in Hsplit. subst consumed.
    exists n', t'. split; [exact Hround |]. split; [exact Hrest |]. split.
    + apply (Hship 2 "beta:7080"%string (mkPool "beta:7080"));
        [reflexivity | vm_compute; discriminate | reflexivity | reflexivity].
    + apply (Hship 3 "gamma:7080"%string (mkPool "gamma:7080"));
        [reflexivity | vm_compute; discriminate | reflexivity | reflexivity].
Defined.

(** ** The soft limit *)

(** A message that lifts the accounted size above the soft limit ends
    the slurp loop: nothing more is received in this round. *)
Lemma slurp_loop_over_limit (fuel : nat) (b : gmap Z (list byte)) (total : Z)
    (sm : sendmsg) (ch : chan sendmsg) :
  messageBatchSoftLimit < total + (4 + len (data sm)) ->
  slurp_loop (S fuel) b total sm ch = Some (append_frame b sm, ch).
Proof.
  intros Hover. simpl.
  by destruct (Z.ltb_spec messageBatchSoftLimit (total + (4 + len (data sm))));
    [| lia].
Qed.

(** Two sends to node 2, the first with a payload [d] of more than
    9,999,996 bytes: the round ships the frame of the first message
    alone and leaves the second message queued. *)
Lemma first_message_over_limit (d : list byte) :
  messageBatchSoftLimit < 4 + len d ->
  ∃ n n' t',
    run_activities node_with_peers
      [ActSend (mkMessage 2 (inr d)); ActSend msg_bb] = Ret n
    ∧ round n pools_healthy tx_fresh = Ret (n', t')
    ∧ chan_contents (messages n') = [mkSendmsg 2 [Byte.x62; Byte.x62]]
    ∧ filter (fun s => sp_to s = 2) (spawned t')
      = [mkSpawn 2 (mkPool "beta:7080") (frame d)].
Proof.
  intros Hover.
  set (queued := mkChan 100 [mkSendmsg 2 d; mkSendmsg 2 [Byte.x62; Byte.x62]] []).
  set (left := mkChan 100 [mkSendmsg 2 [Byte.x62; Byte.x62]] []).
  exists (set_messages node_with_peers queued),
         (set_messages (set_messages node_with_peers queued) left),
         (ship (set_messages node_with_peers queued) pools_healthy
               (append_frame ∅ (mkSendmsg 2 d)) ∅).
  split; [reflexivity |]. split; [| split; [reflexivity |]].
  - unfold round, slurp.
    change (chan_recv (messages (set_messages node_with_peers queued)))
      with (Some (mkSendmsg 2 d, left)).
    cbv iota beta.
    rewrite slurp_loop_over_limit by (simpl; lia).
    reflexivity.
  - pose proof (ship_healthy (set_messages node_with_peers queued) pools_healthy
                  (append_frame ∅ (mkSendmsg 2 d)) ∅ 2 (frame d)
                  "beta:7080"%string (mkPool "beta:7080")) as Hview.
    unfold view in Hview.
    assert (append_frame ∅ (mkSendmsg 2 d) !! 2 = Some (frame d)) as Hb.
    { unfold append_frame. simpl. by rewrite lookup_insert_eq. }
    specialize (Hview Hb (frame_not_nil d) eq_refl eq_refl).
    by simplify_eq.
Qed.

(** The frame of the first message is not the two frames that the two
    messages make together. *)
Lemma first_frame_alone_differs (d : list byte) :
  frame d ≠ frames_for 2 (omap wire_of [mkMessage 2 (inr d); msg_bb]).
Proof.
  change (frames_for 2 (omap wire_of [mkMessage 2 (inr d); msg_bb]))
    with (frame d ++ frame [Byte.x62; Byte.x62] ++ []).
  intros Heq. apply (f_equal length) in Heq.
  rewrite !length_app, !length_frame in Heq. simpl in Heq. lia.
Qed.

Lemma shipped_first_frame_differs (d : list byte) (l : list Spawn) :
  l = [mkSpawn 2 (mkPool "beta:7080") (frame d)] ->
  l ≠ [mkSpawn 2 (mkPool "beta:7080")
         (frames_for 2 (omap wire_of [mkMessage 2 (inr d); msg_bb]))].
Proof.
  intros -> Heq.
  apply (f_equal (fun l => match l with
                           | s :: _ => sp_data s
                           | [] => []
                           end)) in Heq.
  exact (first_frame_alone_differs d Heq).
Qed.

Lemma len_iter_double (k : nat) (l : list byte) :
  len (Nat.iter k double_bytes l) = 2 ^ Z.of_nat k * len l.
Proof.
  induction k as [| k IH].
  - simpl. lia.
  - rewrite Nat.iter_succ. unfold double_bytes at 1. unfold len in *.
    rewrite length_app, Nat2Z.inj_add, IH, Nat2Z.inj_succ, Z.pow_succ_r by lia.
    lia.
Qed.

Lemma len_payload_16MiB : len payload_16MiB = 16777216.
Proof. unfold payload_16MiB. rewrite len_iter_double. reflexivity. Qed.

(** C1 as stated fails: with a first message of 2^24 payload bytes for
    node 2 followed by the message "bb" for node 2, both sent before the
    round, the batch shipped to node 2 in that round holds the frame of
    the first message only; the frame of "bb" is not in it, and "bb" is
    still queued when the round ends. *)
Lemma soft_limit_splits_batch_counterexample :
  ∃ n n' t',
    run_activities node_with_peers [ActSend msg_16MiB; ActSend msg_bb] = Ret n
    ∧ round n pools_healthy tx_fresh = Ret (n', t')
    ∧ chan_contents (messages n') = [mkSendmsg 2 [Byte.x62; Byte.x62]]
    ∧ filter (fun s => sp_to s = 2) (spawned t')
      ≠ [mkSpawn 2 (mkPool "beta:7080")
           (frames_for 2 (omap wire_of [msg_16MiB; msg_bb]))].
Proof.
  destruct (first_message_over_limit payload_16MiB)
    as (n & n' & t' & Hsend & Hround & Hleft & Hshipped).
  - rewrite len_payload_16MiB. unfold messageBatchSoftLimit. lia.
  - exists n, n', t'. split; [exact Hsend |]. split; [exact Hround |].
    split; [exact Hleft |].
    exact (shipped_first_frame_differs payload_16MiB _ Hshipped).
Qed.

(** The end-to-end scenario of the specification: on a node that knows
    the peers 2 and 3, the messages "a" and "bb" for node 2 and "c" for
    node 3 are sent before the first round; the round ships
    [1,"a"][2,"bb"] to node 2 and [1,"c"] to node 3, empties both
    buffers and logs nothing. *)
Example three_messages_two_batches :
  BatchAndSendMessages
    [mkRoundEnv [ActSend msg_a; ActSend msg_bb; ActSend msg_c] pools_healthy]
    node_with_peers
  = Ret (node_with_peers,
         [mkTx (<[3 := []]> (<[2 := []]> ∅))
               (<[3 := false]> (<[2 := false]> ∅))
               [mkSpawn 2 (mkPool "beta:7080")
                  [Byte.x01; Byte.x00; Byte.x00; Byte.x00; Byte.x61;
                   Byte.x02; Byte.x00; Byte.x00; Byte.x00; Byte.x62; Byte.x62];
                mkSpawn 3 (mkPool "gamma:7080")
                  [Byte.x01; Byte.x00; Byte.x00; Byte.x00; Byte.x63]]
               []]).
Proof. vm_compute. reflexivity. Qed.

(** ** Buffers of unreachable destinations *)

(** C8, the code at the failing input. Node 1 knows no peer. Round 1:
    "a" was sent to node 2, which has no address; a warning is logged,
    nothing is started, and the frame of "a" stays in the buffer.
    Round 2: "bb" was sent to node 2, still without address; no second
    warning, and the buffer now holds both frames. Round 3: node 2 has
    been connected and "c" was sent to node 3, which has no address;
    node 2 is shipped the frames of "a" and "bb" that were buffered in
    the rounds that failed. *)
Theorem unshipped_buffer_is_carried_over :
  ∃ n,
    BatchAndSendMessages
      [mkRoundEnv [ActSend msg_a] pools_healthy;
       mkRoundEnv [ActSend msg_bb] pools_healthy;
       mkRoundEnv [ActPeer (OpConnect 2 "beta:7080"); ActSend msg_c] pools_healthy]
      node_one
    = Ret (n,
           [mkTx {[ 2 := frame [Byte.x61] ]} {[ 2 := true ]} []
                 [mkWarning 2 "" (Some (errOther "no pool"))];
            mkTx {[ 2 := frame [Byte.x61] ++ frame [Byte.x62; Byte.x62] ]}
                 {[ 2 := true ]} [] [];
            mkTx (<[3 := frame [Byte.x63]]> {[ 2 := [] ]})
                 (<[3 := true]> {[ 2 := false ]})
                 [mkSpawn 2 (mkPool "beta:7080")
                    (frame [Byte.x61] ++ frame [Byte.x62; Byte.x62])]
                 [mkWarning 3 "" (Some (errOther "no pool"))]]).
Proof. eexists. vm_compute. reflexivity. Qed.

(** ** proposeConfChange *)

Lemma apply_engine_calls_propose_calls (calls : list (Z * option error)) :
  ∀ w, propose_calls (apply_engine_calls w calls) = propose_calls w.
Proof.
  unfold apply_engine_calls.
  induction calls as [| c calls IH]; intros w; simpl; [done |].
  rewrite IH. unfold DoneConfChange.
  by destruct (confChanges (node w) !! c.1).
Qed.

Lemma apply_engine_calls_has_raft (calls : list (Z * option error)) :
  ∀ w, has_raft (node (apply_engine_calls w calls)) = has_raft (node w).
Proof.
  unfold apply_engine_calls.
  induction calls as [| c calls IH]; intros w; simpl; [done |].
  rewrite IH. unfold DoneConfChange.
  by destruct (confChanges (node w) !! c.1).
Qed.

(** A call that returns has handed exactly one conf change to the
    engine, carrying the kind and node id it was given, and has left
    the raft handle in place. *)
Lemma proposeConfChange_Ret (w w' : World) (e : ProposeEnv) (pb : ConfChange)
    (err : option error) :
  proposeConfChange w e pb = (w', Ret err) ->
  ∃ id, pick_id (draws e) (confChanges (node w)) = Some id
        ∧ propose_calls w' = propose_calls w ++ [with_ID pb id]
        ∧ has_raft (node w') = has_raft (node w).
Proof.
  unfold proposeConfChange, storeConfChange. simpl.
  destruct (pick_id (draws e) (confChanges (node w))) as [id |]; [| done].
  simpl. destruct (has_raft (node w)) eqn:Hraft; [| done].
  intros H. exists id. split; [done |].
  destruct (propose_result e) as [perr |].
  - destruct (cctx_Err (after_propose e)); by simplify_eq.
  - match type of H with
    | context [apply_engine_calls ?w0 ?cs] =>
        pose proof (apply_engine_calls_propose_calls cs w0) as Hcalls;
        pose proof (apply_engine_calls_has_raft cs w0) as Hr;
        destruct (apply_engine_calls w0 cs) as [n4 heap4 calls4] eqn:Hw4
    end.
    simpl in *.
    match type of H with
    | context [select ?cases ?p] => destruct (select cases p) as [[v rest | |] |]
    end; simplify_eq; simpl; by rewrite ?Hcalls, ?Hr.
Qed.

(** The propose call failed while [cctx] was done, be it through its
    own timer or through the caller's context: the retry signal. *)
Lemma propose_failed_cctx_done (w : World) (e : ProposeEnv) (pb : ConfChange)
    (id : Z) (err : error) :
  has_raft (node w) = true ->
  pick_id (draws e) (confChanges (node w)) = Some id ->
  propose_result e = Some err ->
  cctx_Err (after_propose e) ≠ None ->
  snd (proposeConfChange w e pb) = Ret (Some errInternalRetry).
Proof.
  intros Hraft Hid Hres Hdone.
  unfold proposeConfChange, storeConfChange. simpl.
  rewrite Hid. simpl. rewrite Hraft, Hres.
  by destruct (cctx_Err (after_propose e)).
Qed.

(** The propose call failed while neither context was done: the
    engine's error is returned as it is. *)
Lemma propose_failed_cctx_live (w : World) (e : ProposeEnv) (pb : ConfChange)
    (id : Z) (err : error) :
  has_raft (node w) = true ->
  pick_id (draws e) (confChanges (node w)) = Some id ->
  propose_result e = Some err ->
  ctx_err (after_propose e) = None ->
  timer_fired (after_propose e) = false ->
  snd (proposeConfChange w e pb) = Ret (Some err).
Proof.
  intros Hraft Hid Hres Hctx Htimer.
  unfold proposeConfChange, storeConfChange. simpl.
  rewrite Hid. simpl. rewrite Hraft, Hres.
  unfold cctx_Err. by rewrite Htimer, Hctx.
Qed.

(** C3, the code at the failing input: the caller's context is
    cancelled while the propose call is blocked and the 3-second timer
    has not fired; the engine returns the context's error, and
    proposeConfChange returns the retry signal instead of that error. *)
Theorem caller_cancel_returns_retry :
  timer_fired (after_propose (env_cancelled 11)) = false
  ∧ propose_result (env_cancelled 11) = Some ctxCanceled
  ∧ ctx_err (after_propose (env_cancelled 11)) = Some ctxCanceled
  ∧ snd (proposeConfChange world_raft (env_cancelled 11)
           (mkConfChange 0 ConfChangeAddNode 2 []))
    = Ret (Some errInternalRetry).
Proof. repeat split; vm_compute; reflexivity. Qed.

(** ** The retry loop of AddToCluster and ProposePeerRemoval *)

(** With a raft handle and a free id, a call of proposeConfChange hands
    the conf change to the engine, whatever happens afterwards. *)
Lemma proposeConfChange_first_call (w : World) (e : ProposeEnv)
    (pb : ConfChange) (id : Z) :
  has_raft (node w) = true ->
  pick_id (draws e) (confChanges (node w)) = Some id ->
  propose_calls (fst (proposeConfChange w e pb))
  = propose_calls w ++ [with_ID pb id].
Proof.
  intros Hraft Hid.
  unfold proposeConfChange, storeConfChange. simpl.
  rewrite Hid. simpl. rewrite Hraft.
  destruct (propose_result e) as [perr |].
  - by destruct (cctx_Err (after_propose e)).
  - match goal with
    | |- context [apply_engine_calls ?w0 ?cs] =>
        pose proof (apply_engine_calls_propose_calls cs w0) as Hcalls;
        destruct (apply_engine_calls w0 cs) as [n4 heap4 calls4] eqn:Hw4
    end.
    simpl in *.
    match goal with
    | |- context [select ?cases ?p] => destruct (select cases p) as [[v rest | |] |]
    end; simpl; by rewrite ?Hcalls.
Qed.

(** A call of proposeConfChange only ever adds to the conf changes
    handed to the engine. *)
Lemma proposeConfChange_calls (w : World) (e : ProposeEnv) (pb : ConfChange) :
  ∃ more, propose_calls (fst (proposeConfChange w e pb)) = propose_calls w ++ more.
Proof.
  destruct (pick_id (draws e) (confChanges (node w))) as [id |] eqn:Hid.
  - destruct (has_raft (node w)) eqn:Hraft.
    + exists [with_ID pb id]. by apply proposeConfChange_first_call.
    + exists []. unfold proposeConfChange, storeConfChange. simpl.
      rewrite Hid. simpl. rewrite Hraft. simpl. by rewrite app_nil_r.
  - exists []. unfold proposeConfChange, storeConfChange. simpl.
    rewrite Hid. simpl. by rewrite app_nil_r.
Qed.

Lemma retry_loop_calls (envs : list ProposeEnv) (cc : ConfChange) :
  ∀ w, ∃ more,
    propose_calls (fst (retry_loop envs w cc)) = propose_calls w ++ more.
Proof.
  induction envs as [| e envs IH]; intros w; simpl.
  - exists []. by rewrite app_nil_r.
  - destruct (proposeConfChange_calls w e cc) as [more1 Hmore1].
    destruct (proposeConfChange w e cc) as [w1 o]. simpl in Hmore1.
    destruct o as [err | | | |]; try (exists more1; done).
    case_decide; [| exists more1; done].
    destruct (IH w1) as [more2 Hmore2].
    exists (more1 ++ more2). by rewrite Hmore2, Hmore1, app_assoc.
Qed.

(** The loop never returns the retry signal, and when it returns it has
    handed at least one conf change to the engine. *)
Lemma retry_loop_Ret (envs : list ProposeEnv) (cc : ConfChange) :
  ∀ (w w' : World) (err : option error),
    retry_loop envs w cc = (w', Ret err) ->
    err ≠ Some errInternalRetry
    ∧ ∃ c more, propose_calls w' = propose_calls w ++ c :: more.
Proof.
  induction envs as [| e envs IH]; intros w w' err Hloop; simpl in Hloop.
  - by simplify_eq.
  - destruct (proposeConfChange w e cc) as [w1 o] eqn:Hcall.
    destruct o as [err1 | | | |]; try by simplify_eq.
    destruct (proposeConfChange_Ret _ _ _ _ _ Hcall) as (id & _ & Hcalls & _).
    case_decide.
    + destruct (IH w1 w' err Hloop) as (Hne & c & more & Hmore).
      split; [done |]. exists (with_ID cc id), ([] ++ c :: more).
      rewrite Hmore, Hcalls. by rewrite <- app_assoc.
    + simplify_eq. split; [done |]. by exists (with_ID cc id), [].
Qed.

(** AddToCluster and ProposePeerRemoval never return the retry signal
    to their caller. *)
Lemma wrappers_never_return_retry (rcMarshal : RaftContext -> error + list byte)
    (w : World) (envs : list ProposeEnv) (id : Z) :
  snd (AddToCluster rcMarshal w envs id) ≠ Ret (Some errInternalRetry)
  ∧ snd (ProposePeerRemoval w envs id) ≠ Ret (Some errInternalRetry).
Proof.
  split.
  - unfold AddToCluster. destruct (Peer (node w) id) as [addr ok].
    destruct ok; [| done]. destruct (rcMarshal _); [done |].
    match goal with |- context [retry_loop ?e ?w0 ?c] =>
      destruct (retry_loop e w0 c) as [w' o] eqn:Hloop end.
    simpl. intros ->. by destruct (retry_loop_Ret _ _ _ _ _ Hloop).
  - unfold ProposePeerRemoval. destruct (has_raft (node w)); [| done].
    destruct (Peer (node w) id) as [addr ok].
    destruct (negb ok && _); [done |].
    match goal with |- context [retry_loop ?e ?w0 ?c] =>
      destruct (retry_loop e w0 c) as [w' o] eqn:Hloop end.
    simpl. intros ->. by destruct (retry_loop_Ret _ _ _ _ _ Hloop).
Qed.

(** While the engine answers every propose call with the error of the
    cancelled caller context, every turn of the loop ends in the retry
    signal and the loop goes on: [k] turns hand [k] conf changes to the
    engine and the loop has not returned. *)
Lemma retry_loop_cancelled (k : nat) (cc : ConfChange) :
  ∀ (first : nat) (w : World),
    has_raft (node w) = true ->
    (∀ i, (first <= i)%nat -> confChanges (node w) !! Z.of_nat i = None) ->
    ∃ w', retry_loop (envs_cancelled first k) w cc = (w', Waiting)
          ∧ length (propose_calls w') = (length (propose_calls w) + k)%nat.
Proof.
  induction k as [| k IH]; intros first w Hraft Hfree.
  - exists w. simpl. split; [done | lia].
  - unfold envs_cancelled. simpl. fold (envs_cancelled (S first) k).
    unfold proposeConfChange, storeConfChange. simpl.
    rewrite (Hfree first) by lia. simpl. rewrite Hraft. simpl.
    match goal with |- context [retry_loop _ ?w0 _] =>
      destruct (IH (S first) w0) as (w' & Hloop & Hlen) end.
    + done.
    + intros i Hi. simpl. rewrite lookup_insert_ne by lia. apply Hfree. lia.
    + exists w'. split; [done |]. rewrite Hlen. simpl.
      rewrite length_app. simpl. lia.
Qed.

(** C4, the code at the failing input: AddToCluster for the known peer
    2, where the caller's context is cancelled during the first propose
    call and the engine answers each propose call with the context's
    error. Whatever number [k] of turns is looked at, AddToCluster has
    handed [k] conf changes to the engine, all but the first after the
    context was cancelled, and has not returned. *)
Theorem cancelled_caller_keeps_retrying (k : nat) :
  ∃ w', AddToCluster rcMarshal_ok world_raft (envs_cancelled 0 k) 2 = (w', Waiting)
        ∧ length (propose_calls w') = k.
Proof.
  unfold AddToCluster.
  change (Peer (node world_raft) 2) with ("beta:7080"%string, true).
  cbv iota beta.
  change (rcMarshal_ok _) with
    (inr (le_split 8 2) : error + list byte).
  cbv iota beta.
  match goal with |- context [retry_loop _ _ ?cc] =>
    destruct (retry_loop_cancelled k cc 0 world_raft) as (w' & Hloop & Hlen) end.
  - reflexivity.
  - intros i _. reflexivity.
  - exists w'. split; [done |]. by rewrite Hlen.
Qed.

(** ** ProposePeerRemoval *)

(** C6: with a raft handle set, ProposePeerRemoval returns the "not
    part of group" error for [id] without handing anything to the
    engine exactly when [id] has no entry in the peer directory and
    differs from the local id [n.RaftContext.Id]. Removing the local id
    without a directory entry reaches the propose path: once a free
    conf-change id is drawn, a ConfChangeRemoveNode for [id] is handed
    to the engine. *)
Theorem ProposePeerRemoval_not_part_of_group (w : World)
    (envs : list ProposeEnv) (id : Z) :
  has_raft (node w) = true ->
  ((snd (ProposePeerRemoval w envs id) = Ret (Some (errNotPartOfGroup id))
    ∧ propose_calls (fst (ProposePeerRemoval w envs id)) = propose_calls w)
   ↔ (peers (node w) !! id = None ∧ id ≠ rc_Id (RaftContext_ (node w))))
  ∧ (id = rc_Id (RaftContext_ (node w)) ->
     peers (node w) !! id = None ->
     ∀ e rest cid,
       envs = e :: rest ->
       pick_id (draws e) (confChanges (node w)) = Some cid ->
       ∃ more,
         propose_calls (fst (ProposePeerRemoval w envs id))
         = propose_calls w ++ mkConfChange cid ConfChangeRemoveNode id [] :: more).
Proof.
  intros Hraft. unfold ProposePeerRemoval, Peer. rewrite Hraft. split.
  - destruct (peers (node w) !! id) as [addr |] eqn:Hpeer; simpl.
    + split; [| by intros [? _]].
      intros [Hret Hcalls].
      destruct (retry_loop envs w _) as [w' o] eqn:Hloop. simpl in *. subst o.
      destruct (retry_loop_Ret _ _ _ _ _ Hloop) as (_ & c & more & Hmore).
      rewrite Hmore in Hcalls. apply (f_equal length) in Hcalls.
      rewrite length_app in Hcalls. simpl in Hcalls. lia.
    + case_bool_decide as Hid; simpl.
      * split; [| by intros [_ ?]].
        intros [Hret Hcalls].
        destruct (retry_loop envs w _) as [w' o] eqn:Hloop. simpl in *. subst o.
        destruct (retry_loop_Ret _ _ _ _ _ Hloop) as (_ & c & more & Hmore).
        rewrite Hmore in Hcalls. apply (f_equal length) in Hcalls.
        rewrite length_app in Hcalls. simpl in Hcalls. lia.
      * done.
  - intros Hself Hpeer e rest cid -> Hcid.
    rewrite Hpeer. simpl. rewrite bool_decide_eq_true_2 by done. simpl.
    pose proof (proposeConfChange_first_call w e
                  (mkConfChange 0 ConfChangeRemoveNode id []) cid Hraft Hcid)
      as Hfirst.
    destruct (proposeConfChange w e _) as [w1 o] eqn:Hcall. simpl in Hfirst.
    destruct o as [err | | | |]; simpl; try (exists []; done).
    case_decide; [| exists []; done].
    destruct (retry_loop_calls rest (mkConfChange 0 ConfChangeRemoveNode id []) w1)
      as [more Hmore].
    exists more. rewrite Hmore, Hfirst. by rewrite <- app_assoc.
Qed.

(** ** select *)

(** A [select] yields the value of one of its ready cases. *)
Lemma select_elem {A} (cases : list (option A)) (p : nat) (v : A) :
  select cases p = Some v -> Some v ∈ cases.
Proof.
  unfold select, ready_cases. intros Hsel.
  apply list_elem_of_lookup_2 in Hsel.
  apply list_elem_of_omap in Hsel as (o & Ho & Hv). simpl in Hv. by subst o.
Qed.

(** With a single ready case the pick does not matter. *)
Lemma select_single {A} (cases : list (option A)) (p : nat) (v : A) :
  ready_cases cases = [v] -> select cases p = Some v.
Proof.
  unfold select. intros ->.
  change (length [v]) with 1%nat. by rewrite Nat.mod_1_r.
Qed.

(** ** readIndex *)

Lemma wait_select_read_state (o : WaitObs) (rs : ReadState) :
  wait_select o = Some (CaseReadState rs) -> head_rs o = Some rs.
Proof.
  unfold wait_select. intros Hsel. apply select_elem in Hsel.
  repeat (apply elem_of_cons in Hsel as [Hsel | Hsel]).
  - by destruct (closed o).
  - destruct (head_rs o); simpl in Hsel; by simplify_eq.
  - by destruct (ctx_done o).
  - by apply elem_of_nil in Hsel.
Qed.

(** A read state whose token differs from [activeRctx] is dropped and
    the wait goes on as if it had not arrived. *)
Lemma readIndex_wait_mismatch (tok : list byte) (o : WaitObs)
    (rest : list WaitObs) (rs : ReadState) :
  wait_select o = Some (CaseReadState rs) ->
  rs_RequestCtx rs ≠ tok ->
  readIndex_wait tok (o :: rest) = readIndex_wait tok rest.
Proof.
  intros Hsel Hne. simpl. rewrite Hsel.
  by rewrite bool_decide_eq_false_2.
Qed.

(** While only read states with other tokens arrive, the wait does not
    end. *)
Lemma readIndex_wait_all_mismatch (tok : list byte) (obs : list WaitObs) :
  Forall (fun o => ∃ rs, wait_select o = Some (CaseReadState rs)
                         ∧ rs_RequestCtx rs ≠ tok) obs ->
  readIndex_wait tok obs = Waiting.
Proof.
  induction 1 as [| o obs (rs & Hsel & Hne) _ IH]; [done |].
  by rewrite (readIndex_wait_mismatch tok o obs rs).
Qed.

(** How the wait can end: with the index of a read state that carries
    the token, with the closer's error, or with the retry signal. *)
Lemma readIndex_wait_Ret (tok : list byte) (obs : list WaitObs)
    (i : Z) (err : option error) :
  readIndex_wait tok obs = Ret (i, err) ->
  (err = None
   ∧ ∃ o rs, o ∈ obs ∧ head_rs o = Some rs
             ∧ rs_RequestCtx rs = tok ∧ rs_Index rs = i)
  ∨ (i = 0 ∧ err = Some errCloserCalled)
  ∨ (i = 0 ∧ err = Some errInternalRetry).
Proof.
  induction obs as [| o obs IH]; simpl; [done |].
  assert (readIndex_wait tok obs = Ret (i, err) ->
          (err = None
           ∧ ∃ o' rs, o' ∈ o :: obs ∧ head_rs o' = Some rs
                      ∧ rs_RequestCtx rs = tok ∧ rs_Index rs = i)
          ∨ (i = 0 ∧ err = Some errCloserCalled)
          ∨ (i = 0 ∧ err = Some errInternalRetry)) as Hlater.
  { intros H. destruct (IH H) as [(-> & o' & rs & Hin & Hrest) | Hfail];
      [left | by right].
    split; [done |]. exists o', rs. split; [by right | done]. }
  destruct (wait_select o) as [[| rs |] |] eqn:Hsel; intros H.
  - simplify_eq. right. by left.
  - case_bool_decide as Htok; [| by apply Hlater].
    simplify_eq. left. split; [done |].
    exists o, rs. split; [by left |].
    by rewrite (wait_select_read_state o rs Hsel).
  - simplify_eq. right. by right.
  - by apply Hlater.
Qed.

(** How the loop around readIndex can settle on an index: after calls
    that ended in the retry signal, a call either got a read state that
    carries the token of that very call, whose index it is, or failed
    with an error other than the retry signal, and the index is 0. *)
Lemma resolve_index_Ret (n : Node) (envs : list ReadIndexEnv) (index : Z) :
  resolve_index n envs = Ret index ->
  ∃ pre e post,
    envs = pre ++ e :: post
    ∧ Forall (fun e' => ∃ i, readIndex n e' = Ret (i, Some errInternalRetry)) pre
    ∧ ((readIndex n e = Ret (index, None)
        ∧ ∃ o rs, o ∈ waits e ∧ head_rs o = Some rs
                  ∧ rs_RequestCtx rs = activeRctx_of e ∧ rs_Index rs = index)
       ∨ (index = 0
          ∧ ∃ i err, readIndex n e = Ret (i, Some err) ∧ err ≠ errInternalRetry)).
Proof.
  induction envs as [| e envs IH]; simpl; [done |].
  destruct (readIndex n e) as [[i err] | | | |] eqn:Hri; simpl; try done.
  case_decide as Hretry.
  - intros H. destruct (IH H) as (pre & e1 & post & -> & Hpre & Hlast).
    exists (e :: pre), e1, post. split; [done |]. split; [| done].
    constructor; [| done]. exists i. by rewrite <- Hretry.
  - intros H. exists [], e, envs. split; [done |]. split; [constructor |].
    destruct err as [err |]; simplify_eq.
    + right. split; [done |]. exists i, err. split; [done | congruence].
    + left. split; [done |].
      unfold readIndex in Hri. destruct (has_raft n); [| done].
      destruct (readindex_result e); [done |].
      destruct (readIndex_wait_Ret _ _ _ _ Hri)
        as [(_ & o & rs & Hin & Hrs & Htok & Hidx) | [[_ ?] | [_ ?]]]; try done.
      by exists o, rs.
Qed.

(** ** The round of the read-index coordinator *)

Lemma slurpLoop_spec (fuel : nat) :
  ∀ (reqs : list linReadReq) (req : linReadReq) (ch : chan linReadReq),
    (length (chan_contents ch) < fuel)%nat ->
    ∃ ch', slurpLoop fuel reqs req ch = Some (reqs ++ req :: chan_contents ch, ch')
           ∧ chan_contents ch' = [].
Proof.
  induction fuel as [| fuel IH]; intros reqs req ch Hfuel; [lia |]. simpl.
  destruct (chan_recv ch) as [[req' ch1] |] eqn:Hrecv.
  - apply chan_recv_Some in Hrecv. rewrite Hrecv in *. simpl in Hfuel.
    destruct (IH (reqs ++ [req]) req' ch1) as (ch' & -> & Hempty); [lia |].
    exists ch'. by rewrite <- app_assoc.
  - pose proof (chan_recv_None _ Hrecv) as Hnil. rewrite Hnil. by exists ch.
Qed.

(** Fresh one-shot channels all get the index, each exactly once, and
    no other channel is touched. *)
Lemma deliver_spec (index : Z) (batch : list linReadReq) :
  ∀ heap : list (chan Z),
    NoDup (map indexCh batch) ->
    (∀ r, r ∈ batch ->
          ∃ q, heap !! indexCh r = Some q ∧ chan_has_room q = true) ->
    ∃ heap',
      deliver heap batch index = Ret heap'
      ∧ (∀ r q, r ∈ batch -> heap !! indexCh r = Some q ->
                heap' !! indexCh r = Some (chan_send q index))
      ∧ (∀ j, j ∉ map indexCh batch -> heap' !! j = heap !! j).
Proof.
  induction batch as [| r0 batch IH]; intros heap Hnodup Hroom; simpl.
  - exists heap. split; [done |]. split; [| done].
    intros r q Hin. by apply elem_of_nil in Hin.
  - apply NoDup_cons in Hnodup as [Hfresh Hnodup].
    destruct (Hroom r0) as (q0 & Hq0 & Hroom0); [by left |].
    rewrite Hq0, Hroom0.
    destruct (IH (<[indexCh r0 := chan_send q0 index]> heap) Hnodup)
      as (heap' & Hdel & Hsent & Hother).
    { intros r Hr. destruct (Hroom r) as (q & Hq & Hroomq); [by right |].
      exists q. split; [| done].
      rewrite list_lookup_insert_ne; [done |].
      intros Heq. apply Hfresh. rewrite Heq. by apply list_elem_of_fmap_2. }
    exists heap'. split; [done |]. split.
    + intros r q Hr Hq. apply elem_of_cons in Hr as [-> | Hr].
      * rewrite Hother by done.
        rewrite list_lookup_insert_eq by (by eapply lookup_lt_Some).
        congruence.
      * apply Hsent; [done |].
        rewrite list_lookup_insert_ne; [done |].
        intros Heq. apply Hfresh. rewrite Heq. by apply list_elem_of_fmap_2.
    + intros j Hj. apply not_elem_of_cons in Hj as [Hne Hj].
      rewrite Hother by done. by rewrite list_lookup_insert_ne.
Qed.

(** A turn of RunReadIndexLoop that finds a request, and neither the
    closer closed nor a read state waiting, is a round for that
    request. *)
Lemma loop_turn_request (c : Coordinator) (o : LoopObs) (req : linReadReq)
    (ch : chan linReadReq) :
  lo_closed o = false -> lo_head_rs o = None ->
  chan_recv (requestCh (co_node c)) = Some (req, ch) ->
  loop_turn c o = c' ← read_round c req ch (lo_envs o); Ret (inl c').
Proof.
  intros Hclosed Hrs Hrecv. unfold loop_turn.
  by rewrite (select_single _ _ (LoopRequest req ch))
    by (by rewrite Hclosed, Hrs, Hrecv).
Qed.

(** A read state that arrives while no request is pending is dropped:
    the turn changes nothing. *)
Lemma loop_turn_discards_read_state (c : Coordinator) (o : LoopObs)
    (rs : ReadState) :
  lo_closed o = false -> lo_head_rs o = Some rs ->
  chan_recv (requestCh (co_node c)) = None ->
  loop_turn c o = Ret (inl c).
Proof.
  intros Hclosed Hrs Hrecv. unfold loop_turn.
  by rewrite (select_single _ _ (LoopReadState rs))
    by (by rewrite Hclosed, Hrs, Hrecv).
Qed.

(** C2: a round of RunReadIndexLoop over the batch made of the requests
    already held, the request just received and those parked on
    [requestCh], each with its own channel that has room.
    (1) A call of readIndex generates an 8-byte token.
    (2) While a call of readIndex sees only read states with other
    tokens, each is dropped, the round stays unresolved and no channel
    receives anything.
    (3) When the round resolves on an index, every request of the batch
    gets that index appended to its channel, once, no other channel
    changes, and the batch is cleared. The resolving call of readIndex
    follows calls that ended in the retry signal; either it received a
    read state carrying its own token, and the index is that read
    state's index, or it failed with an error other than the retry
    signal, and the index is 0. *)
Theorem read_round_answers_batch (c : Coordinator) (req : linReadReq)
    (ch : chan linReadReq) (envs : list ReadIndexEnv) :
  (∀ e, length (activeRctx_of e) = 8%nat)
  ∧ (∀ e, has_raft (co_node c) = true ->
          readindex_result e = None ->
          Forall (mismatched e) (waits e) ->
          read_round c req ch [e] = Waiting)
  ∧ (∀ index,
       NoDup (map indexCh (requests c ++ req :: chan_contents ch)) ->
       (∀ r, r ∈ requests c ++ req :: chan_contents ch ->
             ∃ q, indexchans c !! indexCh r = Some q ∧ chan_has_room q = true) ->
       resolve_index (co_node c) envs = Ret index ->
       ∃ c',
         read_round c req ch envs = Ret c'
         ∧ requests c' = []
         ∧ (∀ r q, r ∈ requests c ++ req :: chan_contents ch ->
                   indexchans c !! indexCh r = Some q ->
                   indexchans c' !! indexCh r = Some (chan_send q index)
                   ∧ buf (chan_send q index) = buf q ++ [index])
         ∧ (∀ j, j ∉ map indexCh (requests c ++ req :: chan_contents ch) ->
                 indexchans c' !! j = indexchans c !! j)
         ∧ ∃ pre e post,
             envs = pre ++ e :: post
             ∧ Forall (fun e' => ∃ i, readIndex (co_node c) e'
                                      = Ret (i, Some errInternalRetry)) pre
             ∧ ((readIndex (co_node c) e = Ret (index, None)
                 ∧ ∃ o rs, o ∈ waits e ∧ head_rs o = Some rs
                           ∧ rs_RequestCtx rs = activeRctx_of e
                           ∧ rs_Index rs = index)
                ∨ (index = 0
                   ∧ ∃ i err, readIndex (co_node c) e = Ret (i, Some err)
                              ∧ err ≠ errInternalRetry))).
Proof.
  destruct (slurpLoop_spec (S (length (chan_contents ch))) (requests c) req ch)
    as (ch' & Hslurp & Hempty); [lia |].
  split; [| split].
  - intros e. apply length_le_split.
  - intros e Hraft Hres Hmis. unfold read_round. rewrite Hslurp.
    simpl. unfold readIndex. rewrite Hraft, Hres.
    by rewrite (readIndex_wait_all_mismatch (activeRctx_of e) (waits e)).
  - intros index Hnodup Hroom Hresolve.
    destruct (deliver_spec index _ (indexchans c) Hnodup Hroom)
      as (heap' & Hdeliver & Hsent & Hother).
    exists (mkCoordinator (set_requestCh (co_node c) ch') heap' []).
    unfold read_round. rewrite Hslurp, Hresolve. simpl. rewrite Hdeliver. simpl.
    split; [done |]. split; [done |]. split; [| split; [done |]].
    + intros r q Hr Hq. split; [by apply Hsent |].
      destruct (Hroom r Hr) as (q' & Hq' & Hroomq). simplify_eq.
      unfold chan_send. unfold chan_has_room in Hroomq. by rewrite Hroomq.
    + by apply resolve_index_Ret.
Qed.

Lemma read_round_answers_batch_witness :
  read_round coordinator_two (mkLinReadReq 0) parked_request [env_stale_only]
  = Waiting
  ∧ ∃ c', read_round coordinator_two (mkLinReadReq 0) parked_request
                     [env_stale_then_match] = Ret c'
          ∧ requests c' = []
          ∧ indexchans c' !! 0%nat = Some (mkChan 1 [42] [])
          ∧ indexchans c' !! 1%nat = Some (mkChan 1 [42] []).
Proof.
  destruct (read_round_answers_batch coordinator_two (mkLinReadReq 0)
              parked_request [env_stale_then_match])
    as (_ & Hstale & Hround).
  split.
  { apply Hstale; [reflexivity | reflexivity |].
    repeat constructor.
    exists (mkReadState 5 (le_split 8 9)).
    split; [reflexivity | vm_compute; discriminate]. }
  destruct (Hround 42) as (c' & Hret & Hclear & Hsent & _).
  - apply (bool_decide_unpack _). vm_compute. exact I.
  - intros r Hr. exists (make_chan 1).
    apply elem_of_cons in Hr as [-> | Hr]; [split; reflexivity |].
    apply elem_of_cons in Hr as [-> | Hr]; [split; reflexivity |].
    by apply elem_of_nil in Hr.
  - vm_compute. reflexivity.
  - exists c'. split; [exact Hret |]. split; [exact Hclear |]. split.
    + apply (Hsent (mkLinReadReq 0) (make_chan 1)); [by left | reflexivity].
    + apply (Hsent (mkLinReadReq 1) (make_chan 1));
        [right; by left | reflexivity].
Defined.

(** ** WaitLinearizableRead *)

(** C5: WaitLinearizableRead returns the context's error when the
    coordinator does not take the request and the context is done, and
    when the request was taken and the context is done with no index
    delivered; with index 0 delivered it returns errReadIndex; with a
    non-zero index delivered it returns what
    [Applied.WaitForMark(ctx, index)] returns. Whatever the runtime
    picks when two cases are ready, a returned value is one of
    these. *)
Theorem WaitLinearizableRead_results (e : ReadEnv) :
  (coordinator_receiving e = false ->
   ∀ err, ctx_err1 e = Some err -> WaitLinearizableRead e = Ret (Some err))
  ∧ (coordinator_receiving e = true -> ctx_err1 e = None ->
     (delivered e = None ->
      ∀ err, ctx_err2 e = Some err -> WaitLinearizableRead e = Ret (Some err))
     ∧ (ctx_err2 e = None -> delivered e = Some 0 ->
        WaitLinearizableRead e = Ret (Some errReadIndex))
     ∧ (ctx_err2 e = None ->
        ∀ index, index ≠ 0 -> delivered e = Some index ->
                 WaitLinearizableRead e = Ret (WaitForMark e index)))
  ∧ (∀ r, WaitLinearizableRead e = Ret r ->
          (r = ctx_err1 e ∧ r ≠ None)
          ∨ (coordinator_receiving e = true
             ∧ ((r = ctx_err2 e ∧ r ≠ None)
                ∨ (delivered e = Some 0 ∧ r = Some errReadIndex)
                ∨ (∃ index, index ≠ 0 ∧ delivered e = Some index
                            ∧ r = WaitForMark e index)))).
Proof.
  unfold WaitLinearizableRead. split; [| split].
  - intros -> err ->. by rewrite (select_single _ _ HandoverCtxDone).
  - intros -> ->. rewrite (select_single _ _ Handed) by done.
    split; [| split].
    + intros -> err ->. by rewrite (select_single _ _ IndexCtxDone).
    + intros -> ->. by rewrite (select_single _ _ (GotIndex 0)).
    + intros -> index Hne ->.
      rewrite (select_single _ _ (GotIndex index)) by done.
      by rewrite decide_False.
  - intros r.
    destruct (select _ (pick1 e)) as [[|] |] eqn:Hsel1; [| | done].
    + apply select_elem in Hsel1.
      assert (coordinator_receiving e = true) as Hrecv.
      { repeat (apply elem_of_cons in Hsel1 as [Hsel1 | Hsel1]).
        - by destruct (coordinator_receiving e).
        - by destruct (ctx_err1 e).
        - by apply elem_of_nil in Hsel1. }
      destruct (select _ (pick2 e)) as [[index |] |] eqn:Hsel2; [| | done].
      * apply select_elem in Hsel2.
        assert (delivered e = Some index) as Hdel.
        { repeat (apply elem_of_cons in Hsel2 as [Hsel2 | Hsel2]).
          - destruct (delivered e); simpl in Hsel2; by simplify_eq.
          - by destruct (ctx_err2 e).
          - by apply elem_of_nil in Hsel2. }
        case_decide as Hzero; intros H; simplify_eq; right; (split; [done |]).
        -- right. by left.
        -- right. right. by exists index.
      * apply select_elem in Hsel2.
        assert (ctx_err2 e ≠ None) as Hdone.
        { repeat (apply elem_of_cons in Hsel2 as [Hsel2 | Hsel2]).
          - by destruct (delivered e).
          - by destruct (ctx_err2 e).
          - by apply elem_of_nil in Hsel2. }
        intros H. simplify_eq. right. split; [done |]. by left.
    + apply select_elem in Hsel1.
      assert (ctx_err1 e ≠ None) as Hdone.
      { repeat (apply elem_of_cons in Hsel1 as [Hsel1 | Hsel1]).
        - by destruct (coordinator_receiving e).
        - by destruct (ctx_err1 e).
        - by apply elem_of_nil in Hsel1. }
      intros H. simplify_eq. by left.
Qed.

Lemma WaitLinearizableRead_results_witness :
  WaitLinearizableRead read_env_not_taken = Ret (Some ctxDeadlineExceeded)
  ∧ WaitLinearizableRead read_env_expired = Ret (Some ctxCanceled)
  ∧ WaitLinearizableRead read_env_zero = Ret (Some errReadIndex)
  ∧ WaitLinearizableRead read_env_index = Ret None.
Proof.
  split; [| split; [| split]].
  - apply (proj1 (WaitLinearizableRead_results read_env_not_taken));
      reflexivity.
  - destruct (proj1 (proj2 (WaitLinearizableRead_results read_env_expired))
                eq_refl eq_refl) as (H & _ & _).
    apply H; reflexivity.
  - destruct (proj1 (proj2 (WaitLinearizableRead_results read_env_zero))
                eq_refl eq_refl) as (_ & H & _).
    apply H; reflexivity.
  - destruct (proj1 (proj2 (WaitLinearizableRead_results read_env_index))
                eq_refl eq_refl) as (_ & _ & H).
    apply (H eq_refl 42); [lia | reflexivity].
Defined.

Lemma ProposePeerRemoval_not_part_of_group_witness :
  snd (ProposePeerRemoval world_raft [env_applied 11] 9)
  = Ret (Some (errNotPartOfGroup 9))
  ∧ propose_calls (fst (ProposePeerRemoval world_raft [env_applied 11] 9)) = []
  ∧ ∃ more,
      propose_calls (fst (ProposePeerRemoval world_raft [env_applied 11] 1))
      = [] ++ mkConfChange 11 ConfChangeRemoveNode 1 [] :: more.
Proof.
  destruct (ProposePeerRemoval_not_part_of_group world_raft [env_applied 11] 9
              eq_refl) as [Hiff _].
  destruct (proj2 Hiff) as [Hret Hcalls].
  { split; [reflexivity | vm_compute; discriminate]. }
  split; [exact Hret |]. split; [exact Hcalls |].
  destruct (ProposePeerRemoval_not_part_of_group world_raft [env_applied 11] 1
              eq_refl) as [_ Hself].
  apply (Hself eq_refl eq_refl (env_applied 11) [] 11); reflexivity.
Defined.

(** * Further properties of the peer directory *)

(** X1: Connect for a peer other than the node itself, with a
    non-empty address, returns with that address stored for the peer
    and every other entry and field as before. It dials a pool only when
    the address is new for that peer and is not the node's own. *)
Theorem Connect_then_Peer (n : Node) (pid : Z) (addr : string) :
  pid ≠ Id n -> addr ≠ ""%string ->
  ∃ n',
    Connect n pid addr
    = Ret (n', if decide (peers n !! pid = Some addr ∨ addr = MyAddr n)
               then [] else [addr])
    ∧ Peer n' pid = (addr, true)
    ∧ (∀ q, q ≠ pid -> Peer n' q = Peer n q)
    ∧ Id n' = Id n ∧ MyAddr n' = MyAddr n
    ∧ messages n' = messages n ∧ confChanges n' = confChanges n.
Proof.
  intros Hpid Haddr. unfold Connect, Peer.
  rewrite decide_False by done.
  destruct (peers n !! pid) as [paddr |] eqn:Hpeer.
  - destruct (decide (paddr = addr)) as [-> | Hne].
    + exists n. rewrite bool_decide_eq_true_2 by done. simpl.
      rewrite decide_True by (by left). rewrite Hpeer. by repeat split.
    + rewrite bool_decide_eq_false_2 by done. simpl.
      unfold SetPeer. rewrite (decide_False (P := addr = ""%string)) by done.
      exists (set_peers n (<[pid := addr]> (peers n))).
      split.
      * destruct (decide (addr = MyAddr n)) as [Hmy | Hmy]; simpl.
        -- by rewrite decide_True by (by right).
        -- rewrite decide_False; [done |]. intros [? | ?]; congruence.
      * simpl. rewrite lookup_insert_eq. repeat split; try done.
        intros q Hq. by rewrite lookup_insert_ne.
  - simpl. unfold SetPeer. rewrite (decide_False (P := addr = ""%string)) by done.
    exists (set_peers n (<[pid := addr]> (peers n))).
    split.
    + destruct (decide (addr = MyAddr n)) as [Hmy | Hmy]; simpl.
      * by rewrite decide_True by (by right).
      * rewrite decide_False; [done |]. intros [? | ?]; congruence.
    + simpl. rewrite lookup_insert_eq. repeat split; try done.
      intros q Hq. by rewrite lookup_insert_ne.
Qed.

Lemma Connect_then_Peer_witness :
  ∃ n', Connect node_one 2 "beta:7080" = Ret (n', ["beta:7080"%string])
        ∧ Peer n' 2 = ("beta:7080"%string, true)
        ∧ Peer n' 3 = Peer node_one 3.
Proof.
  destruct (Connect_then_Peer node_one 2 "beta:7080")
    as (n' & Hret & Hpeer & Hother & _).
  - vm_compute. discriminate.
  - discriminate.
  - exists n'. split; [exact Hret |]. split; [exact Hpeer |].
    apply Hother. lia.
Defined.

(** X2: a Connect call that returns makes the same call a no-op: the
    second call changes nothing and dials nothing. *)
Theorem Connect_twice (n n' : Node) (pid : Z) (addr : string)
    (dials : list string) :
  Connect n pid addr = Ret (n', dials) ->
  Connect n' pid addr = Ret (n', []).
Proof.
  unfold Connect. intros Hfirst.
  destruct (decide (pid = Id n)) as [Hself | Hother].
  { simplify_eq. by rewrite decide_True. }
  destruct (Peer n pid) as [paddr ok] eqn:Hpeer.
  destruct (ok && bool_decide (paddr = addr)) eqn:Hsame.
  { simplify_eq. rewrite decide_False by done. by rewrite Hpeer, Hsame. }
  assert (SetPeer n pid addr = Ret n') as Hset.
  { destruct (decide (addr = MyAddr n));
      destruct (SetPeer n pid addr); simpl in Hfirst; by simplify_eq. }
  apply SetPeer_Ret in Hset as ->. simpl.
  rewrite decide_False by done.
  unfold Peer. simpl. rewrite lookup_insert_eq. simpl.
  by rewrite bool_decide_eq_true_2.
Qed.

Lemma Connect_twice_witness :
  Connect (set_peers node_one (<[2 := "beta:7080"%string]> ∅)) 2 "beta:7080"
  = Ret (set_peers node_one (<[2 := "beta:7080"%string]> ∅), []).
Proof.
  apply (Connect_twice node_one
           (set_peers node_one (<[2 := "beta:7080"%string]> ∅))
           2 "beta:7080" ["beta:7080"%string]).
  reflexivity.
Defined.

(** Every call on the directory keeps the stored addresses non-empty. *)
Lemma run_op_addresses (n n' : Node) (op : PeerOp) :
  map_Forall (fun _ a => a ≠ ""%string) (peers n) ->
  run_op n op = Ret n' ->
  map_Forall (fun _ a => a ≠ ""%string) (peers n').
Proof.
  intros Hinv Hrun.
  assert (∀ pid addr n1, SetPeer n pid addr = Ret n1 ->
            map_Forall (fun _ a => a ≠ ""%string) (peers n1)) as Hset.
  { intros pid addr n1 H. unfold SetPeer in H.
    case_decide; [done |]. simplify_eq. simpl.
    by apply map_Forall_insert_2. }
  destruct op as [pid addr | pid addr | pid]; simpl in Hrun.
  - unfold Connect in Hrun.
    destruct (decide (pid = Id n)); simpl in Hrun; [by simplify_eq |].
    destruct (Peer n pid) as [paddr ok].
    destruct (ok && bool_decide (paddr = addr)); simpl in Hrun;
      [by simplify_eq |].
    destruct (decide (addr = MyAddr n));
      destruct (SetPeer n pid addr) eqn:Hs; simpl in Hrun; simplify_eq;
      by eapply Hset.
  - by eapply Hset.
  - simplify_eq. unfold DeletePeer. case_decide; [done |]. simpl.
    by apply map_Forall_delete.
Qed.

(** X3: on a node built by NewNode, after any sequence of Connect,
    SetPeer and DeletePeer calls that runs to its end, no stored address
    is empty; so Peer answers with an empty address only for a peer it
    does not know. *)
Theorem stored_addresses_not_empty (rc : RaftContext) (snap : error + Z)
    (n0 n : Node) (ops : list PeerOp) :
  NewNode rc snap = Ret n0 ->
  run_ops n0 ops = Ret n ->
  (∀ pid addr, peers n !! pid = Some addr -> addr ≠ ""%string)
  ∧ (∀ pid ok, Peer n pid = (""%string, ok) -> ok = false).
Proof.
  intros Hnew Hrun.
  assert (map_Forall (fun _ a => a ≠ ""%string) (peers n)) as Hinv.
  { apply NewNode_Ret in Hnew as (_ & _ & Hempty & _).
    assert (map_Forall (fun _ a => a ≠ ""%string) (peers n0)) as H0
      by (rewrite Hempty; apply map_Forall_empty).
    clear Hempty. revert n0 H0 Hrun.
    induction ops as [| op ops IH]; intros n0 H0 Hrun; simpl in Hrun.
    - by simplify_eq.
    - destruct (run_op n0 op) as [n1 | | | |] eqn:Hop; simpl in Hrun; try done.
      apply (IH n1); [| done]. by eapply run_op_addresses. }
  split.
  - intros pid addr Hpeer. by apply (Hinv pid).
  - intros pid ok. unfold Peer.
    destruct (peers n !! pid) as [addr |] eqn:Hpeer; intros H; simplify_eq;
      [| done].
    by destruct (Hinv pid ""%string Hpeer).
Qed.

Lemma stored_addresses_not_empty_witness :
  ∃ n, run_ops node_one peer_ops_example = Ret n
       ∧ ∀ pid addr, peers n !! pid = Some addr -> addr ≠ ""%string.
Proof.
  eexists. split; [vm_compute; reflexivity |].
  apply (stored_addresses_not_empty rc_one (inr 0) node_one _ peer_ops_example);
    [reflexivity | vm_compute; reflexivity].
Defined.

(** X4: DeletePeer undoes Connect. For a peer other than the node
    itself that was not in the directory, Connect followed by DeletePeer
    gives back the node as it was, and Peer no longer knows the peer.
    DeletePeer on the node's own id does nothing. *)
Theorem DeletePeer_undoes_Connect (n n' : Node) (pid : Z) (addr : string)
    (dials : list string) :
  pid ≠ Id n ->
  peers n !! pid = None ->
  Connect n pid addr = Ret (n', dials) ->
  DeletePeer n' pid = n
  ∧ Peer (DeletePeer n' pid) pid = (""%string, false)
  ∧ DeletePeer n (Id n) = n.
Proof.
  intros Hpid Hnone Hconn.
  assert (n' = set_peers n (<[pid := addr]> (peers n))) as ->.
  { unfold Connect, Peer in Hconn. rewrite decide_False in Hconn by done.
    rewrite Hnone in Hconn. simpl in Hconn.
    destruct (decide (addr = MyAddr n));
      destruct (SetPeer n pid addr) eqn:Hs; simpl in Hconn; simplify_eq;
      by apply SetPeer_Ret in Hs. }
  assert (DeletePeer (set_peers n (<[pid := addr]> (peers n))) pid = n) as Hback.
  { unfold DeletePeer. simpl. rewrite decide_False by done.
    unfold set_peers. simpl. rewrite delete_insert_id by done. by destruct n. }
  split; [done |]. split.
  - rewrite Hback. unfold Peer. by rewrite Hnone.
  - unfold DeletePeer. by rewrite decide_True.
Qed.

Lemma DeletePeer_undoes_Connect_witness :
  DeletePeer (set_peers node_one (<[2 := "beta:7080"%string]> ∅)) 2 = node_one.
Proof.
  apply (DeletePeer_undoes_Connect node_one
           (set_peers node_one (<[2 := "beta:7080"%string]> ∅))
           2 "beta:7080" ["beta:7080"%string]).
  - vm_compute. discriminate.
  - reflexivity.
  - reflexivity.
Defined.

(** * Further properties of the pending conf changes *)

(** The loop of storeConfChange returns a value that is not pending,
    having skipped only values that are. *)
Lemma pick_id_Some (draws : list Z) (pending : gmap Z nat) (id : Z) :
  pick_id draws pending = Some id ->
  pending !! id = None
  ∧ ∃ pre post, draws = pre ++ id :: post
                ∧ Forall (fun d => is_Some (pending !! d)) pre.
Proof.
  induction draws as [| d draws IH]; simpl; [done |].
  destruct (pending !! d) as [ch |] eqn:Hd; intros H.
  - destruct (IH H) as (Hfree & pre & post & -> & Hpre).
    split; [done |]. exists (d :: pre), post. split; [done |].
    constructor; [by rewrite Hd | done].
  - simplify_eq. split; [done |]. exists [], draws. by split.
Qed.

(** X5: storeConfChange registers the channel under the first drawn id
    that is not pending: the id was free, every draw before it was
    taken, no pending entry is overwritten or removed, and nothing but
    the pending map changes. *)
Theorem storeConfChange_fresh_id (w w' : World) (che : nat) (draws : list Z)
    (id : Z) :
  storeConfChange w che draws = Some (w', id) ->
  confChanges (node w) !! id = None
  ∧ (∃ pre post, draws = pre ++ id :: post
                 ∧ Forall (fun d => is_Some (confChanges (node w) !! d)) pre)
  ∧ confChanges (node w') !! id = Some che
  ∧ (∀ j ch, confChanges (node w) !! j = Some ch ->
             confChanges (node w') !! j = Some ch)
  ∧ size (confChanges (node w')) = S (size (confChanges (node w)))
  ∧ peers (node w') = peers (node w)
  ∧ errchans w' = errchans w
  ∧ propose_calls w' = propose_calls w.
Proof.
  unfold storeConfChange. intros H.
  destruct (pick_id draws (confChanges (node w))) as [id' |] eqn:Hpick;
    [| done].
  simplify_eq. destruct (pick_id_Some _ _ _ Hpick) as [Hfree Hdraws].
  simpl. split; [done |]. split; [done |].
  split; [by rewrite lookup_insert_eq |]. split.
  - intros j ch Hj. rewrite lookup_insert_ne; [done |]. congruence.
  - split; [by apply map_size_insert_None | done].
Qed.

Lemma storeConfChange_fresh_id_witness :
  ∃ w', storeConfChange world_pending 1%nat [5; 6; 5] = Some (w', 6)
        ∧ confChanges (node w') !! 6 = Some 1%nat
        ∧ confChanges (node w') !! 5 = Some 0%nat.
Proof.
  eexists. split; [vm_compute; reflexivity |].
  destruct (storeConfChange_fresh_id world_pending _ 1%nat [5; 6; 5] 6 eq_refl)
    as (_ & _ & Hnew & Hold & _).
  split; [exact Hnew |]. apply Hold. reflexivity.
Defined.

(** X6: completing an id right after it was stored delivers the error
    once on the channel that was stored and gives back the node as it
    was before the id was stored. *)
Theorem DoneConfChange_undoes_store (w w' : World) (che : nat)
    (draws : list Z) (id : Z) (err : option error) (c : chan (option error)) :
  storeConfChange w che draws = Some (w', id) ->
  errchans w !! che = Some c ->
  node (DoneConfChange w' id err) = node w
  ∧ errchans (DoneConfChange w' id err) !! che = Some (chan_send c err)
  ∧ (∀ j, j ≠ che ->
          errchans (DoneConfChange w' id err) !! j = errchans w !! j)
  ∧ propose_calls (DoneConfChange w' id err) = propose_calls w.
Proof.
  unfold storeConfChange. intros H Hc.
  destruct (pick_id draws (confChanges (node w))) as [id' |] eqn:Hpick;
    [| done].
  simplify_eq. destruct (pick_id_Some _ _ _ Hpick) as [Hfree _].
  unfold DoneConfChange. simpl. rewrite lookup_insert_eq. simpl.
  split; [| split; [| split; [| done]]].
  - unfold set_confChanges. simpl. rewrite delete_insert_id by done.
    by destruct (node w).
  - by rewrite list_lookup_alter_eq, Hc.
  - intros j Hj. by rewrite list_lookup_alter_ne.
Qed.

Lemma DoneConfChange_undoes_store_witness :
  ∃ w', storeConfChange world_pending 0%nat [6] = Some (w', 6)
        ∧ node (DoneConfChange w' 6 None) = node world_pending
        ∧ errchans (DoneConfChange w' 6 None) !! 0%nat
          = Some (mkChan 1 [None] []).
Proof.
  eexists. split; [vm_compute; reflexivity |].
  destruct (DoneConfChange_undoes_store world_pending _ 0%nat [6] 6 None
              (make_chan 1) eq_refl eq_refl) as (Hnode & Hch & _).
  split; [exact Hnode | exact Hch].
Defined.

(** X7: two conf changes pending at the same time have different ids,
    and completing one leaves the other pending, with its channel
    untouched. *)
Theorem pending_conf_changes_independent (w w1 w2 : World) (c1 c2 : nat)
    (d1 d2 : list Z) (id1 id2 : Z) (err : option error) :
  storeConfChange w c1 d1 = Some (w1, id1) ->
  storeConfChange w1 c2 d2 = Some (w2, id2) ->
  c1 ≠ c2 ->
  id1 ≠ id2
  ∧ confChanges (node (DoneConfChange w2 id1 err)) !! id1 = None
  ∧ confChanges (node (DoneConfChange w2 id1 err)) !! id2 = Some c2
  ∧ errchans (DoneConfChange w2 id1 err) !! c2 = errchans w !! c2.
Proof.
  intros H1 H2 Hch.
  destruct (storeConfChange_fresh_id _ _ _ _ _ H1)
    as (_ & _ & Hid1 & _ & _ & _ & Hheap1 & _).
  destruct (storeConfChange_fresh_id _ _ _ _ _ H2)
    as (Hfree2 & _ & Hid2 & Hkeep & _ & _ & Hheap2 & _).
  assert (id1 ≠ id2) as Hne by congruence.
  split; [done |]. split; [apply DoneConfChange_not_pending |].
  unfold DoneConfChange. rewrite (Hkeep id1 c1 Hid1). simpl.
  split.
  - by rewrite lookup_delete_ne.
  - rewrite list_lookup_alter_ne by done. by rewrite Hheap2, Hheap1.
Qed.

Lemma pending_conf_changes_independent_witness :
  ∃ w1 w2,
    storeConfChange world_pending 1%nat [5; 6] = Some (w1, 6)
    ∧ storeConfChange w1 2%nat [6; 7] = Some (w2, 7)
    ∧ confChanges (node (DoneConfChange w2 6 None)) !! 7 = Some 2%nat.
Proof.
  eexists. eexists. split; [vm_compute; reflexivity |].
  split; [vm_compute; reflexivity |].
  match goal with
  | |- confChanges (node (DoneConfChange ?w2 _ _)) !! _ = _ =>
      destruct (pending_conf_changes_independent world_pending
                  (mkWorld (set_confChanges (node world_pending)
                              (<[6 := 1%nat]> (confChanges (node world_pending))))
                           (errchans world_pending) (propose_calls world_pending))
                  w2 1%nat 2%nat [5; 6] [6; 7] 6 7 None)
        as (_ & _ & H & _)
  end.
  - vm_compute. reflexivity.
  - vm_compute. reflexivity.
  - lia.
  - exact H.
Defined.

(** The channel that proposeConfChange allocates sits at the end of the
    heap. *)
Lemma lookup_last_alloc {A} (l : list A) (x : A) :
  (l ++ [x]) !! length l = Some x.
Proof. by rewrite lookup_app_r, Nat.sub_diag by lia. Qed.

Lemma alter_last_alloc {A} (f : A -> A) (l : list A) (x : A) :
  alter f (length l) (l ++ [x]) = l ++ [f x].
Proof. induction l as [| y l IH]; simpl; [done |]. by f_equal. Qed.

Lemma insert_last_alloc {A} (l : list A) (x y : A) :
  <[length l := y]> (l ++ [x]) = l ++ [y].
Proof. induction l as [| z l IH]; simpl; [done |]. by f_equal. Qed.

(** X8: the engine accepts the proposal and completes it, calling
    DoneConfChange once with the id attached to the proposal, while
    neither context is done. Then proposeConfChange returns the error
    of that call as it is (nil included), has handed the conf change to
    the engine once, and leaves the pending map as it found it; the
    channel it allocated is empty again. *)
Theorem proposeConfChange_applied (w : World) (e : ProposeEnv)
    (pb : ConfChange) (id : Z) (err : option error) :
  has_raft (node w) = true ->
  pick_id (draws e) (confChanges (node w)) = Some id ->
  propose_result e = None ->
  engine_calls e id = [(id, err)] ->
  ctx_err (at_select e) = None ->
  timer_fired (at_select e) = false ->
  proposeConfChange w e pb
  = (mkWorld (node w) (errchans w ++ [make_chan 1])
             (propose_calls w ++ [with_ID pb id]),
     Ret err).
Proof.
  intros Hraft Hid Hres Hcalls Hctx Htimer.
  destruct (pick_id_Some _ _ _ Hid) as [Hfree _].
  unfold proposeConfChange, storeConfChange. simpl.
  rewrite Hid. simpl. rewrite Hraft, Hres, Hcalls.
  unfold apply_engine_calls, DoneConfChange. simpl.
  rewrite lookup_insert_eq. simpl.
  rewrite alter_last_alloc, lookup_last_alloc. simpl.
  unfold cctx_Err. rewrite Hctx, Htimer. simpl.
  rewrite insert_last_alloc.
  unfold set_confChanges. simpl. rewrite delete_insert_id by done.
  by destruct (node w).
Qed.

Lemma proposeConfChange_applied_witness :
  proposeConfChange world_raft (env_applied 11)
    (mkConfChange 0 ConfChangeRemoveNode 3 [])
  = (mkWorld (node world_raft) [make_chan 1]
             [mkConfChange 11 ConfChangeRemoveNode 3 []],
     Ret None).
Proof.
  apply (proposeConfChange_applied world_raft (env_applied 11)
           (mkConfChange 0 ConfChangeRemoveNode 3 []) 11 None);
    reflexivity.
Defined.

(** X9: a call of proposeConfChange during which the engine does not
    complete the proposal leaves the id it stored in the pending map,
    whatever way the call ends: the map has one entry more than
    before. *)
Theorem proposeConfChange_leaves_id_pending (w : World) (e : ProposeEnv)
    (pb : ConfChange) (id : Z) :
  has_raft (node w) = true ->
  pick_id (draws e) (confChanges (node w)) = Some id ->
  engine_calls e id = [] ->
  confChanges (node (fst (proposeConfChange w e pb)))
  = <[id := length (errchans w)]> (confChanges (node w))
  ∧ size (confChanges (node (fst (proposeConfChange w e pb))))
    = S (size (confChanges (node w))).
Proof.
  intros Hraft Hid Hcalls.
  destruct (pick_id_Some _ _ _ Hid) as [Hfree _].
  assert (confChanges (node (fst (proposeConfChange w e pb)))
          = <[id := length (errchans w)]> (confChanges (node w))) as Hmap.
  { unfold proposeConfChange, storeConfChange. simpl.
    rewrite Hid. simpl. rewrite Hraft.
    destruct (propose_result e) as [perr |].
    - by destruct (cctx_Err (after_propose e)).
    - rewrite Hcalls. unfold apply_engine_calls. simpl.
      match goal with
      | |- context [select ?cases ?p] =>
          destruct (select cases p) as [[v rest | |] |]
      end; done. }
  split; [done |]. rewrite Hmap. by apply map_size_insert_None.
Qed.

Lemma proposeConfChange_leaves_id_pending_witness :
  confChanges (node (fst (proposeConfChange world_raft (env_cancelled 11)
                            (mkConfChange 0 ConfChangeAddNode 2 []))))
  = <[11 := 0%nat]> ∅.
Proof.
  apply (proposeConfChange_leaves_id_pending world_raft (env_cancelled 11)
           (mkConfChange 0 ConfChangeAddNode 2 []) 11);
    reflexivity.
Defined.

(** Every conf change that the retry loop hands to the engine is the
    one it was given, under some id; a loop that returns has handed over
    at least one and does not return the retry signal. *)
Lemma retry_loop_shape (envs : list ProposeEnv) (cc : ConfChange) :
  ∀ w, ∃ ids,
    propose_calls (fst (retry_loop envs w cc))
    = propose_calls w ++ map (with_ID cc) ids
    ∧ ∀ err, snd (retry_loop envs w cc) = Ret err ->
             ids ≠ [] ∧ err ≠ Some errInternalRetry.
Proof.
  induction envs as [| e envs IH]; intros w; simpl.
  - exists []. split; [by rewrite app_nil_r | done].
  - assert (∃ ids1, propose_calls (fst (proposeConfChange w e cc))
                    = propose_calls w ++ map (with_ID cc) ids1
                    ∧ ∀ err, snd (proposeConfChange w e cc) = Ret err -> ids1 ≠ [])
      as (ids1 & Hcalls1 & Hret1).
    { destruct (proposeConfChange w e cc) as [w1 o] eqn:Hcall.
      destruct o as [err1 | | | |].
      - destruct (proposeConfChange_Ret _ _ _ _ _ Hcall) as (id & _ & Hc & _).
        by exists [id].
      - destruct (proposeConfChange_calls w e cc) as [more Hmore].
        rewrite Hcall in Hmore. unfold proposeConfChange, storeConfChange in Hcall.
        simpl in Hcall.
        destruct (pick_id (draws e) (confChanges (node w))); [| done].
        simpl in Hcall. destruct (has_raft (node w)); [| done].
        destruct (propose_result e);
          [by destruct (cctx_Err (after_propose e)) |].
        by destruct (select _ (pick e)) as [[| |] |].
      - unfold proposeConfChange, storeConfChange in Hcall. simpl in Hcall.
        destruct (pick_id (draws e) (confChanges (node w))); [| done].
        simpl in Hcall. destruct (has_raft (node w)); [| done].
        destruct (propose_result e);
          [by destruct (cctx_Err (after_propose e)) |].
        by destruct (select _ (pick e)) as [[| |] |].
      - unfold proposeConfChange, storeConfChange in Hcall. simpl in Hcall.
        destruct (pick_id (draws e) (confChanges (node w))); [| done].
        simpl in Hcall. destruct (has_raft (node w)) eqn:Hraft.
        + destruct (propose_result e);
            [by destruct (cctx_Err (after_propose e)) |].
          by destruct (select _ (pick e)) as [[| |] |].
        + simplify_eq. exists []. simpl. by rewrite app_nil_r.
      - destruct (pick_id (draws e) (confChanges (node w))) as [id |] eqn:Hid.
        + destruct (has_raft (node w)) eqn:Hraft.
          * exists [id]. split; [| done].
            pose proof (proposeConfChange_first_call w e cc id Hraft Hid) as H.
            by rewrite Hcall in H.
          * unfold proposeConfChange, storeConfChange in Hcall. simpl in Hcall.
            rewrite Hid in Hcall. simpl in Hcall. by rewrite Hraft in Hcall.
        + exists []. split; [| done].
          unfold proposeConfChange, storeConfChange in Hcall. simpl in Hcall.
          rewrite Hid in Hcall. simplify_eq. simpl. by rewrite app_nil_r. }
    destruct (proposeConfChange w e cc) as [w1 o]. simpl in *.
    destruct o as [err1 | | | |]; try (exists ids1; by split).
    case_decide as Hretry.
    + destruct (IH w1) as (ids2 & Hcalls2 & Hret2).
      exists (ids1 ++ ids2). split.
      * by rewrite Hcalls2, Hcalls1, map_app, app_assoc.
      * intros err Herr. destruct (Hret2 err Herr) as [Hne ?].
        split; [| done]. by destruct ids1, ids2.
    + exists ids1. simpl. split; [done |].
      intros err Herr. simplify_eq. split; [by eapply Hret1 | done].
Qed.

(** X10: AddToCluster for a peer that is not in the directory fails its
    assertion and leaves the world as it was: nothing is stored and
    nothing reaches the engine. When AddToCluster returns, the peer was
    in the directory, the value returned is not the retry signal, and
    everything handed to the engine meanwhile is a ConfChangeAddNode for
    that peer whose context is the encoded RaftContext of the peer's id,
    the node's group and the peer's address; at least one was handed
    over. *)
Theorem AddToCluster_outcomes (rcMarshal : RaftContext -> error + list byte)
    (w : World) (envs : list ProposeEnv) (pid : Z) :
  (peers (node w) !! pid = None ->
   AddToCluster rcMarshal w envs pid
   = (w, AssertFailed "Unable to find conn pool for peer: %#x"))
  ∧ (∀ w' err,
       AddToCluster rcMarshal w envs pid = (w', Ret err) ->
       err ≠ Some errInternalRetry
       ∧ ∃ addr rcBytes ids,
           peers (node w) !! pid = Some addr
           ∧ rcMarshal (mkRaftContext pid (rc_Group (RaftContext_ (node w))) addr)
             = inr rcBytes
           ∧ ids ≠ []
           ∧ propose_calls w'
             = propose_calls w
               ++ map (with_ID (mkConfChange 0 ConfChangeAddNode pid rcBytes)) ids).
Proof.
  unfold AddToCluster, Peer. split.
  - by intros ->.
  - intros w' err.
    destruct (peers (node w) !! pid) as [addr |]; [| done].
    destruct (rcMarshal _) as [merr | rcBytes] eqn:Hm; [done |].
    intros Hloop.
    destruct (retry_loop_shape envs
                (mkConfChange 0 ConfChangeAddNode pid rcBytes) w)
      as (ids & Hcalls & Hret).
    rewrite Hloop in Hcalls, Hret. simpl in *.
    destruct (Hret err eq_refl) as [Hids Herr].
    split; [done |]. by exists addr, rcBytes, ids.
Qed.

Lemma AddToCluster_outcomes_witness :
  AddToCluster rcMarshal_ok world_raft [env_applied 11] 9
  = (world_raft, AssertFailed "Unable to find conn pool for peer: %#x")
  ∧ ∃ w', AddToCluster rcMarshal_ok world_raft [env_applied 11] 2 = (w', Ret None)
          ∧ ∃ ids, ids ≠ []
                   ∧ propose_calls w'
                     = [] ++ map (with_ID (mkConfChange 0 ConfChangeAddNode 2
                                             (le_split 8 2))) ids.
Proof.
  split.
  - apply (proj1 (AddToCluster_outcomes rcMarshal_ok world_raft
                    [env_applied 11] 9)).
    reflexivity.
  - eexists. split; [vm_compute; reflexivity |].
    destruct (proj2 (AddToCluster_outcomes rcMarshal_ok world_raft
                       [env_applied 11] 2) _ None eq_refl)
      as (_ & addr & rcBytes & ids & Haddr & Hm & Hids & Hcalls).
    vm_compute in Hm. simplify_eq.
    exists ids. split; [exact Hids | exact Hcalls].
Defined.

(** * Further properties of the transmitter *)

(** Two byte strings that both start with a frame and are equal start
    with the same payload and continue equally, when the payloads are
    shorter than 2^32 bytes. *)
Lemma frame_app_inj (d1 d2 r1 r2 : list byte) :
  len d1 < 2 ^ 32 -> len d2 < 2 ^ 32 ->
  frame d1 ++ r1 = frame d2 ++ r2 ->
  d1 = d2 ∧ r1 = r2.
Proof.
  unfold frame. intros H1 H2 Heq. rewrite <- !app_assoc in Heq.
  apply app_inj_1 in Heq as [Hhead Htail];
    [| by rewrite !length_le_split].
  apply (f_equal le_combine) in Hhead. rewrite !le_combine_split in Hhead.
  change (Z.of_nat 4 * 8) with 32 in Hhead. unfold uint32 in Hhead.
  rewrite !Z.mod_mod in Hhead by lia.
  unfold len in *. rewrite !Z.mod_small in Hhead by lia.
  apply app_inj_1 in Htail; [done | lia].
Qed.

Lemma frames_for_payloads (dest : Z) (msgs : list sendmsg) :
  frames_for dest msgs = concat (map frame (payloads_for dest msgs)).
Proof.
  unfold payloads_for. induction msgs as [| sm msgs IH]; simpl; [done |].
  destruct (decide (to sm = dest)) as [Hto | Hto].
  - rewrite filter_cons_True by done. simpl. by rewrite IH.
  - by rewrite filter_cons_False by done.
Qed.

Lemma concat_frames_inj (l1 : list (list byte)) :
  ∀ l2 : list (list byte),
    Forall (fun d => len d < 2 ^ 32) l1 ->
    Forall (fun d => len d < 2 ^ 32) l2 ->
    concat (map frame l1) = concat (map frame l2) ->
    l1 = l2.
Proof.
  induction l1 as [| d1 l1 IH]; intros [| d2 l2] H1 H2 Heq;
    cbn [map concat] in Heq.
  - done.
  - apply (f_equal length) in Heq. rewrite length_app, length_frame in Heq.
    simpl in Heq. lia.
  - apply (f_equal length) in Heq. rewrite length_app, length_frame in Heq.
    simpl in Heq. lia.
  - apply Forall_cons in H1 as [Hd1 H1]. apply Forall_cons in H2 as [Hd2 H2].
    apply frame_app_inj in Heq as [-> Heq]; [| done | done].
    f_equal. by apply IH.
Qed.

(** X11: the framing can be read back in one way only. Two sequences of
    queued messages whose payloads for a destination are each shorter
    than 2^32 bytes and that give the same batch bytes for that
    destination carry the same payloads for it, in the same order. *)
Theorem batch_determines_payloads (dest : Z) (ms1 ms2 : list sendmsg) :
  Forall (fun d => len d < 2 ^ 32) (payloads_for dest ms1) ->
  Forall (fun d => len d < 2 ^ 32) (payloads_for dest ms2) ->
  frames_for dest ms1 = frames_for dest ms2 ->
  payloads_for dest ms1 = payloads_for dest ms2.
Proof.
  intros H1 H2 Heq. rewrite !frames_for_payloads in Heq.
  by apply concat_frames_inj.
Qed.

Lemma batch_determines_payloads_witness :
  payloads_for 2 [mkSendmsg 2 [Byte.x61]; mkSendmsg 3 [Byte.x63];
                  mkSendmsg 2 [Byte.x62; Byte.x62]]
  = payloads_for 2 [mkSendmsg 2 [Byte.x61]; mkSendmsg 2 [Byte.x62; Byte.x62]].
Proof.
  apply batch_determines_payloads.
  - repeat constructor.
  - repeat constructor.
  - reflexivity.
Defined.




(** Every goroutine the second loop starts is for a destination whose
    buffer was not empty, with that buffer as its data and the healthy
    pool of the destination's address; no destination gets two. *)
Lemma ship_spawned (n : Node) (pools : Pools) (b : gmap Z (list byte))
    (fc : gmap Z bool) :
  Forall (fun s => b !! sp_to s = Some (sp_data s) ∧ sp_data s ≠ []
                   ∧ ∃ addr, peers n !! sp_to s = Some addr
                             ∧ pools addr = inr (sp_pool s))
         (spawned (ship n pools b fc))
  ∧ NoDup (map sp_to (spawned (ship n pools b fc))).
Proof.
  unfold ship.
  apply (map_fold_weak_ind
           (fun t m =>
              Forall (fun s => m !! sp_to s = Some (sp_data s) ∧ sp_data s ≠ []
                               ∧ ∃ addr, peers n !! sp_to s = Some addr
                                         ∧ pools addr = inr (sp_pool s))
                     (spawned t)
              ∧ NoDup (map sp_to (spawned t)))).
  - split; constructor.
  - intros i buf m t Hfresh [Hall Hnodup].
    assert (Forall (fun s => <[i := buf]> m !! sp_to s = Some (sp_data s)
                             ∧ sp_data s ≠ []
                             ∧ ∃ addr, peers n !! sp_to s = Some addr
                                       ∧ pools addr = inr (sp_pool s))
                   (spawned t)) as Hall'.
    { eapply Forall_impl; [exact Hall |]. intros s (Hs & Hdata & Haddr).
      split; [| done]. rewrite lookup_insert_ne; [done |]. congruence. }
    unfold ship_one.
    destruct (len buf =? 0) eqn:Hlen; [done |].
    unfold Peer. destruct (peers n !! i) as [addr |] eqn:Hpeer.
    + destruct (pools addr) as [e | pool] eqn:Hpool.
      * by destruct (default false (failedConn t !! i)).
      * simpl. split.
        -- apply Forall_app. split; [done |]. constructor; [| done]. simpl.
           rewrite lookup_insert_eq. split; [done |].
           split; [by destruct buf | by exists addr].
        -- rewrite map_app. simpl. apply NoDup_app. split; [done |].
           split; [| by apply NoDup_singleton].
           intros j Hj Hi. apply list_elem_of_singleton in Hi as ->.
           apply list_elem_of_fmap in Hj as (s & -> & Hs).
           rewrite Forall_forall in Hall.
           destruct (Hall s Hs) as [Hm _]. congruence.
    + destruct (pools ""%string);
        by destruct (default false (failedConn t !! i)).
Qed.

(** X13: what a round never does. Every sender goroutine it starts
    carries a non-empty batch, goes to a destination that has an
    address in the directory, and uses the healthy pool of that
    address; no destination gets two goroutines in one round; and the
    buffer of every destination it ships to is empty afterwards. *)
Theorem round_starts_proper_senders (n n' : Node) (pools : Pools)
    (t t' : Transmitter) :
  round n pools t = Ret (n', t') ->
  Forall (fun s => sp_data s ≠ []
                   ∧ (∃ addr, peers n !! sp_to s = Some addr
                              ∧ pools addr = inr (sp_pool s))
                   ∧ batches t' !! sp_to s = Some [])
         (spawned t')
  ∧ NoDup (map sp_to (spawned t')).
Proof.
  unfold round. destruct (slurp n (batches t)) as [[b' ch'] | | | |]; try done.
  simpl. intros H. simplify_eq.
  destruct (ship_spawned n pools b' (failedConn t)) as [Hall Hnodup].
  split; [| done].
  eapply Forall_impl; [exact Hall |].
  intros s (Hb & Hdata & addr & Hpeer & Hpool).
  split; [done |]. split; [by exists addr |].
  pose proof (ship_healthy n pools b' (failedConn t) (sp_to s) (sp_data s)
                addr (sp_pool s) Hb Hdata Hpeer Hpool) as Hview.
  unfold view in Hview. by simplify_eq.
Qed.

Lemma round_starts_proper_senders_witness :
  ∃ n' t', round node_with_peers_queued pools_healthy tx_fresh = Ret (n', t')
           ∧ NoDup (map sp_to (spawned t'))
           ∧ Forall (fun s => sp_data s ≠ []) (spawned t').
Proof.
  eexists. eexists. split; [vm_compute; reflexivity |].
  match goal with
  | |- NoDup (map sp_to (spawned ?t1)) ∧ _ =>
      destruct (round_starts_proper_senders node_with_peers_queued
                  node_with_peers pools_healthy tx_fresh t1)
        as [Hall Hnodup]
  end.
  - vm_compute. reflexivity.
  - split; [exact Hnodup |].
    eapply Forall_impl; [exact Hall |]. by intros s [Hdata _].
Defined.

(** A round that returns found a message in the queue. *)
Lemma round_Ret_queue (n n' : Node) (pools : Pools) (t t' : Transmitter) :
  round n pools t = Ret (n', t') -> chan_contents (messages n) ≠ [].
Proof.
  unfold round, slurp.
  destruct (chan_recv (messages n)) as [[sm ch] |] eqn:Hrecv; [| done].
  intros _. apply chan_recv_Some in Hrecv. by rewrite Hrecv.
Qed.

(** X14: a destination that has bytes buffered when a round begins and
    cannot be reached in that round gets no sender goroutine and has
    its failure flag set afterwards. The round logs one warning naming
    it, with the address looked up and the pool error, if the flag was
    not set when the round began, and none if it was. *)
Theorem warning_on_first_failure_only (n n' : Node) (pools : Pools)
    (t t' : Transmitter) (dest : Z) :
  round n pools t = Ret (n', t') ->
  buffer_of (batches t) dest ≠ [] ->
  unreachable n pools dest ->
  filter (fun s => sp_to s = dest) (spawned t') = []
  ∧ failedConn t' !! dest = Some true
  ∧ filter (fun w => w_to w = dest) (warnings t')
    = if default false (failedConn t !! dest) then []
      else [mkWarning dest (fst (Peer n dest))
                      (err_of (pools (fst (Peer n dest))))].
Proof.
  intros Hround Hpending Hbad.
  pose proof (round_Ret_queue _ _ _ _ _ Hround) as Hqueue.
  destruct (slurp_spec n (batches t) Hqueue)
    as (consumed & rest & b' & ch' & Hslurp & _ & _ & Hbuf & _).
  unfold round in Hround. rewrite Hslurp in Hround. simpl in Hround.
  simplify_eq.
  assert (∃ buf, b' !! dest = Some buf ∧ buf ≠ []) as (buf & Hb & Hne).
  { specialize (Hbuf dest). unfold buffer_of in Hbuf at 1.
    destruct (b' !! dest) as [buf |].
    - exists buf. split; [done |]. rewrite Hbuf.
      destruct (buffer_of (batches t) dest); [done | discriminate].
    - destruct (buffer_of (batches t) dest); [done | discriminate]. }
  pose proof (ship_unhealthy n pools b' (failedConn t) dest buf Hb Hne Hbad)
    as Hview.
  unfold view in Hview. simplify_eq.
  split; [done |]. split; [| done].
  match goal with H : failedConn _ !! dest = _ |- _ => rewrite H end.
  destruct (failedConn t !! dest) as [[|] |]; done.
Qed.

Lemma warning_on_first_failure_only_witness :
  ∃ n' t', round node_one_queued pools_healthy tx_failed_once = Ret (n', t')
           ∧ failedConn t' !! 2 = Some true
           ∧ filter (fun w => w_to w = 2) (warnings t') = [].
Proof.
  eexists. eexists. split; [vm_compute; reflexivity |].
  match goal with
  | |- failedConn ?t1 !! _ = _ ∧ _ =>
      destruct (warning_on_first_failure_only node_one_queued node_one
                  pools_healthy tx_failed_once t1 2)
        as (_ & Hflag & Hwarn)
  end.
  - vm_compute. reflexivity.
  - vm_compute. discriminate.
  - left. reflexivity.
  - split; [exact Hflag | exact Hwarn].
Defined.

Lemma frames_for_not_nil (dest : Z) (msgs : list sendmsg) :
  frames_for dest msgs ≠ [] -> ∃ sm, sm ∈ msgs ∧ to sm = dest.
Proof.
  induction msgs as [| sm msgs IH]; cbn [frames_for]; [done |].
  destruct (decide (to sm = dest)) as [Hto | Hto].
  - intros _. exists sm. split; [by left | done].
  - intros H. destruct (IH H) as (sm' & Hin & Hto').
    exists sm'. split; [by right | done].
Qed.

(** X15: a round in which every destination that has bytes buffered or
    a message queued has an address and a healthy pool leaves every
    buffer empty. *)
Theorem reachable_round_empties_buffers (n n' : Node) (pools : Pools)
    (t t' : Transmitter) :
  round n pools t = Ret (n', t') ->
  (∀ dest,
     buffer_of (batches t) dest ≠ []
     ∨ (∃ sm, sm ∈ chan_contents (messages n) ∧ to sm = dest) ->
     ∃ addr pool, peers n !! dest = Some addr ∧ pools addr = inr pool) ->
  ∀ dest, buffer_of (batches t') dest = [].
Proof.
  intros Hround Hreach dest.
  pose proof (round_Ret_queue _ _ _ _ _ Hround) as Hqueue.
  destruct (slurp_spec n (batches t) Hqueue)
    as (consumed & rest & b' & ch' & Hslurp & Hsplit & _ & Hbuf & _).
  unfold round in Hround. rewrite Hslurp in Hround. simpl in Hround.
  simplify_eq.
  pose proof (ship_view n pools b' (failedConn t) dest) as Hview.
  specialize (Hbuf dest). unfold buffer_of in Hbuf at 1. unfold buffer_of at 1.
  destruct (b' !! dest) as [buf |] eqn:Hb.
  - destruct buf as [| x buf].
    + unfold ship_one, view in Hview. simpl in Hview. simplify_eq.
      match goal with H : batches _ !! dest = _ |- _ => rewrite H end.
      by rewrite Hb.
    + destruct (Hreach dest) as (addr & pool & Hpeer & Hpool).
      { destruct (buffer_of (batches t) dest) eqn:Hold; [right | by left].
        simpl in Hbuf.
        destruct (frames_for_not_nil dest consumed) as (sm & Hin & Hto).
        - by rewrite <- Hbuf.
        - exists sm. split; [| done]. rewrite Hsplit.
          apply elem_of_app. by left. }
      pose proof (ship_healthy n pools b' (failedConn t) dest (x :: buf)
                    addr pool Hb ltac:(done) Hpeer Hpool) as Hv.
      unfold view in Hv. simplify_eq.
      by match goal with H : batches _ !! dest = _ |- _ => rewrite H end.
  - unfold view in Hview. simpl in Hview. simplify_eq.
    match goal with H : batches _ !! dest = _ |- _ => rewrite H end.
    by rewrite Hb.
Qed.

Lemma reachable_round_empties_buffers_witness :
  ∃ n' t', round node_with_peers_queued pools_healthy tx_fresh = Ret (n', t')
           ∧ buffer_of (batches t') 2 = [] ∧ buffer_of (batches t') 3 = [].
Proof.
  eexists. eexists. split; [vm_compute; reflexivity |].
  match goal with
  | |- buffer_of (batches ?t1) _ = _ ∧ _ =>
      pose proof (reachable_round_empties_buffers node_with_peers_queued
                    node_with_peers pools_healthy tx_fresh t1) as H
  end.
  assert (∀ dest,
            buffer_of (batches tx_fresh) dest ≠ []
            ∨ (∃ sm, sm ∈ chan_contents (messages node_with_peers_queued)
                     ∧ to sm = dest) ->
            ∃ addr pool, peers node_with_peers_queued !! dest = Some addr
                         ∧ pools_healthy addr = inr pool) as Hreach.
  { intros dest [Hold | (sm & Hin & Hto)]; [done |].
    repeat (apply elem_of_cons in Hin as [-> | Hin]); simpl in Hto; subst dest.
    - by exists "beta:7080"%string, (mkPool "beta:7080").
    - by exists "beta:7080"%string, (mkPool "beta:7080").
    - by exists "gamma:7080"%string, (mkPool "gamma:7080").
    - by apply elem_of_nil in Hin. }
  split; apply H; try exact Hreach; vm_compute; reflexivity.
Defined.

(** * Further properties of Send *)

Lemma make_chan_bounded {A} (k : nat) : chan_bounded (make_chan (A := A) k).
Proof. split; [simpl; lia | by left]. Qed.

Lemma chan_send_bounded {A} (c : chan A) (x : A) :
  chan_bounded c ->
  chan_bounded (chan_send c x) ∧ cap (chan_send c x) = cap c.
Proof.
  unfold chan_bounded, chan_send. intros [Hle Hq].
  destruct (Nat.ltb_spec (length (buf c)) (cap c)) as [Hlt | Hge]; simpl.
  - rewrite length_app. simpl. split; [| done]. split; [lia |].
    destruct Hq as [Hq | Hq]; [by left | lia].
  - split; [| done]. split; [done |]. right. lia.
Qed.

Lemma chan_bounded_wf {A} (c : chan A) : chan_bounded c -> chan_wf c.
Proof. intros [Hle [Hq | Hq]]; [by left | right; lia]. Qed.

(** In a bounded channel the buffer is the first [cap] values handed
    over and not yet received, and the parked senders hold the rest. *)
Lemma chan_bounded_split {A} (c : chan A) :
  chan_bounded c ->
  buf c = take (cap c) (chan_contents c)
  ∧ sendq c = drop (cap c) (chan_contents c).
Proof.
  unfold chan_contents. intros [Hle [Hq | Hq]].
  - rewrite Hq, app_nil_r. by rewrite take_ge, drop_ge by lia.
  - rewrite <- Hq. by rewrite take_app_length, drop_app_length.
Qed.

Lemma sends_bounded (ms : list Message) :
  ∀ n0 n : Node,
    chan_bounded (messages n0) ->
    run_activities n0 (map ActSend ms) = Ret n ->
    chan_bounded (messages n) ∧ cap (messages n) = cap (messages n0).
Proof.
  induction ms as [| m ms IH]; intros n0 n Hb Hrun; simpl in Hrun.
  - by simplify_eq.
  - destruct (Send n0 m) as [n1 | | | |] eqn:Hsend; simpl in Hrun; try done.
    unfold Send in Hsend. case_decide; [done |].
    destruct (Marshal m) as [e | d]; simplify_eq.
    destruct (chan_send_bounded (messages n0) (mkSendmsg (To m) d) Hb)
      as [Hb1 Hcap1].
    destruct (IH (set_messages n0
                    (chan_send (messages n0) (mkSendmsg (To m) d))) n Hb1 Hrun)
      as [Hbn Hcapn].
    split; [done |]. by rewrite Hcapn.
Qed.

(** X16: Send holds messages back instead of dropping them. After any
    number of Send calls on the empty queue of a new node, the first
    100 messages are in the channel buffer and every later one waits
    with its parked sender, all in the order of the calls; none is
    lost. *)
Theorem sends_fill_buffer_then_park (n0 n : Node) (ms : list Message) :
  messages n0 = make_chan 100 ->
  run_activities n0 (map ActSend ms) = Ret n ->
  buf (messages n) = take 100 (omap wire_of ms)
  ∧ sendq (messages n) = drop 100 (omap wire_of ms)
  ∧ length (omap wire_of ms) = length ms.
Proof.
  intros Hfresh Hrun.
  assert (chan_bounded (messages n0)) as Hb0
    by (rewrite Hfresh; apply make_chan_bounded).
  destruct (sends_bounded ms n0 n Hb0 Hrun) as [Hb Hcap].
  destruct (sends_contents ms n0 n (chan_bounded_wf _ Hb0) Hrun)
    as (Hcontents & Hlen & _).
  destruct (chan_bounded_split _ Hb) as [Hbuf Hq].
  rewrite Hcap, Hfresh, Hcontents in Hbuf, Hq.
  rewrite Hfresh in Hbuf, Hq. simpl in Hbuf, Hq.
  done.
Qed.

Lemma sends_fill_buffer_then_park_witness :
  ∃ n, run_activities node_one (map ActSend [msg_a; msg_bb; msg_c]) = Ret n
       ∧ buf (messages n)
         = [mkSendmsg 2 [Byte.x61]; mkSendmsg 2 [Byte.x62; Byte.x62];
            mkSendmsg 3 [Byte.x63]]
       ∧ sendq (messages n) = [].
Proof.
  eexists. split; [vm_compute; reflexivity |].
  match goal with
  | |- buf (messages ?n1) = _ ∧ _ =>
      destruct (sends_fill_buffer_then_park node_one n1 [msg_a; msg_bb; msg_c])
        as (Hbuf & Hq & _)
  end.
  - reflexivity.
  - vm_compute. reflexivity.
  - split; [exact Hbuf | exact Hq].
Defined.

(** * Further properties of the read-index coordinator *)

(** Calls of readIndex that end in the retry signal are skipped by the
    loop around readIndex. *)
Lemma resolve_index_skips_retries (n : Node) (pre envs : list ReadIndexEnv) :
  Forall (fun e => ∃ i, readIndex n e = Ret (i, Some errInternalRetry)) pre ->
  resolve_index n (pre ++ envs) = resolve_index n envs.
Proof.
  induction 1 as [| e pre [i Hi] _ IH]; [done |].
  simpl. rewrite Hi. simpl. exact IH.
Qed.

(** X17: attempts that end in the retry signal leave no trace. A round
    of RunReadIndexLoop whose first calls of readIndex time out ends as
    the round without those calls does: same deliveries, same state. *)
Theorem read_round_skips_retries (c : Coordinator) (req : linReadReq)
    (ch : chan linReadReq) (pre envs : list ReadIndexEnv) :
  Forall (fun e => ∃ i, readIndex (co_node c) e
                        = Ret (i, Some errInternalRetry)) pre ->
  read_round c req ch (pre ++ envs) = read_round c req ch envs.
Proof.
  intros Hpre. unfold read_round.
  by rewrite resolve_index_skips_retries.
Qed.

Lemma read_round_skips_retries_witness :
  read_round coordinator_two (mkLinReadReq 0) parked_request
             ([env_timed_out; env_timed_out] ++ [env_stale_then_match])
  = read_round coordinator_two (mkLinReadReq 0) parked_request
               [env_stale_then_match].
Proof.
  apply read_round_skips_retries.
  repeat constructor; exists 0; reflexivity.
Defined.

Lemma deliver_length (index : Z) (batch : list linReadReq) :
  ∀ heap heap' : list (chan Z),
    deliver heap batch index = Ret heap' -> length heap' = length heap.
Proof.
  induction batch as [| r batch IH]; intros heap heap' H; simpl in H.
  - by simplify_eq.
  - destruct (heap !! indexCh r) as [q |]; [| done].
    destruct (chan_has_room q); [| done].
    apply IH in H. by rewrite length_insert in H.
Qed.

(** A turn of RunReadIndexLoop that goes on leaves the batch empty, the
    raft handle in place and the number of index channels as it was. *)
Lemma loop_turn_at_rest (c c' : Coordinator) (o : LoopObs) :
  requests c = [] ->
  loop_turn c o = Ret (inl c') ->
  requests c' = []
  ∧ has_raft (co_node c') = has_raft (co_node c)
  ∧ length (indexchans c') = length (indexchans c).
Proof.
  intros Hrest. unfold loop_turn.
  destruct (select _ (lo_pick o)) as [[| rs | req ch] |]; try done.
  - intros H. by simplify_eq.
  - unfold read_round.
    destruct (slurpLoop _ _ _ _) as [[batch ch'] |]; [| done].
    destruct (resolve_index _ _) as [index | | | |]; simpl; try done.
    destruct (deliver _ _ _) as [heap | | | |] eqn:Hdel; simpl; try done.
    intros H. simplify_eq. simpl.
    split; [done |]. split; [done |]. by eapply deliver_length.
Qed.

(** X18: between two turns of RunReadIndexLoop the batch is empty.
    Started with an empty batch, after any number of turns that it
    survives the loop holds no request, still has its raft handle
    setting, and has neither added nor removed an index channel. *)
Theorem RunReadIndexLoop_at_rest (obs : list LoopObs) :
  ∀ c c' : Coordinator,
    requests c = [] ->
    RunReadIndexLoop c obs = Ret (inl c') ->
    requests c' = []
    ∧ has_raft (co_node c') = has_raft (co_node c)
    ∧ length (indexchans c') = length (indexchans c).
Proof.
  induction obs as [| o obs IH]; intros c c' Hrest Hrun; simpl in Hrun.
  - by simplify_eq.
  - destruct (loop_turn c o) as [[c1 | []] | | | |] eqn:Hturn;
      simpl in Hrun; try done.
    destruct (loop_turn_at_rest c c1 o Hrest Hturn) as (Hr1 & Hraft1 & Hlen1).
    destruct (IH c1 c' Hr1 Hrun) as (Hr & Hraft & Hlen).
    split; [done |]. split; congruence.
Qed.

Lemma RunReadIndexLoop_at_rest_witness :
  ∃ c', RunReadIndexLoop coordinator_waiting loop_obs_example = Ret (inl c')
        ∧ requests c' = []
        ∧ indexchans c' = [mkChan 1 [42] []; mkChan 1 [42] []].
Proof.
  eexists. split; [vm_compute; reflexivity |].
  split; [| reflexivity].
  match goal with
  | |- requests ?c1 = [] =>
      apply (RunReadIndexLoop_at_rest loop_obs_example coordinator_waiting c1)
  end.
  - reflexivity.
  - vm_compute. reflexivity.
Defined.

(** * Properties of the store helpers *)



(** X20: SaveToStorage returns exactly when a call of Save succeeds: it
    has then logged every error that came before, in order, and makes
    no further call; as long as Save fails it does not return, and it
    never ends in a failure of its own. *)
Theorem SaveToStorage_until_success (results : list (option error)) :
  (∀ logged,
     SaveToStorage results = Ret logged
     ↔ ∃ rest, results = map Some logged ++ None :: rest)
  ∧ (Forall (fun r => r ≠ None) results -> SaveToStorage results = Waiting)
  ∧ (SaveToStorage results = Waiting ∨ ∃ logged, SaveToStorage results = Ret logged).
Proof.
  induction results as [| r results (IHret & IHwait & IHout)]; simpl.
  - split; [| split; [done | by left]].
    intros logged. split; [done |]. intros [rest H]. by destruct logged.
  - destruct r as [err |].
    + split; [| split].
      * intros logged. split.
        -- destruct (SaveToStorage results) as [l | | | |] eqn:Hs;
             simpl; try done.
           intros H. simplify_eq.
           destruct (proj1 (IHret l) eq_refl) as [rest ->]. by exists rest.
        -- intros [rest H]. destruct logged as [| e logged]; simpl in H;
             simplify_eq.
           assert (SaveToStorage (map Some logged ++ None :: rest) = Ret logged)
             as Hs by (apply IHret; by exists rest).
           by rewrite Hs.
      * intros Hall. apply Forall_cons in Hall as [_ Hall].
        by rewrite (IHwait Hall).
      * destruct IHout as [-> | [l ->]]; [by left | right; by exists (err :: l)].
    + split; [| split].
      * intros logged. split.
        -- intros H. simplify_eq. by exists results.
        -- intros [rest H]. by destruct logged.
      * intros Hall. apply Forall_cons in Hall as [Hne _]. done.
      * right. by exists [].
Qed.

Lemma SaveToStorage_until_success_witness :
  SaveToStorage [Some (errOther "disk"); Some (errOther "disk")] = Waiting
  ∧ SaveToStorage [Some (errOther "disk"); None; Some (errOther "late")]
    = Ret [errOther "disk"].
Proof.
  split.
  - apply (proj1 (proj2 (SaveToStorage_until_success
                           [Some (errOther "disk"); Some (errOther "disk")]))).
    repeat constructor; discriminate.
  - apply (proj1 (SaveToStorage_until_success
                    [Some (errOther "disk"); None; Some (errOther "late")])).
    by exists [Some (errOther "late")].
Defined.






